(** * GoFast: a concurrent, range-based downloader (src/main.go)

    A shallow embedding of the three functions of [main.go]:
    [GetFileSize] (the size resolver), [GetDownloadChunks] (the chunk
    planner) and [DownloadChunks] (the fetch coordinator), with the
    properties of the specification stated and proved against them.

    Conventions.
    - A Go [uint64] is a [Z] in [[0, 2^64)]; every arithmetic operation
      writes its reduction modulo [2^64] out.
    - A Go function that may panic returns a [result].
    - The network, the file system and the scheduler are explicit
      parameters: oracles for what the outside world answers, and a list of
      picks for the order in which goroutines run.
    - [fmt.Printf] logging is not modelled. *)

From Stdlib Require Import ZArith Lia Ascii String DecimalString DecimalPos.
From stdpp Require Import base tactics option list strings gmap.

Local Open Scope Z_scope.

(** ** Machine integers *)

Module U64.

Definition modulus : Z := 2 ^ 64.
Definition max : Z := modulus - 1.

Definition wrap (z : Z) : Z := z mod modulus.

Definition add (a b : Z) : Z := wrap (a + b).
Definition sub (a b : Z) : Z := wrap (a - b).
Definition mul (a b : Z) : Z := wrap (a * b).

Definition in_range (z : Z) : Prop := 0 <= z < modulus.

(** [uint64(x)] for a signed [x], and [int64(x)] for an unsigned one. *)
Definition of_int64 (z : Z) : Z := wrap z.
Definition to_int64 (z : Z) : Z := if z <? 2 ^ 63 then z else z - modulus.

End U64.

(** ** Results of code that may panic *)

Inductive result (A : Type) : Type :=
| Ok (a : A)
| Panic (msg : string)
| OutOfFuel.
Arguments Ok {A} a.
Arguments Panic {A} msg.
Arguments OutOfFuel {A}.

#[global] Instance result_ret : MRet result := @Ok.

#[global] Instance result_bind : MBind result := fun A B k r =>
  match r with
  | Ok a => k a
  | Panic m => Panic m
  | OutOfFuel => OutOfFuel
  end.

(** ** The chunk planner *)

(** [type DownloadChunk struct { Start uint64; End uint64 }] *)
Record DownloadChunk : Type := mkChunk { Start : Z; End : Z }.

#[global] Instance DownloadChunk_eq_dec : EqDecision DownloadChunk.
Proof. solve_decision. Defined.

(** [results[i] = c]: an index outside the slice panics. *)
Definition store {A} (results : list A) (i : Z) (c : A) : result (list A) :=
  if (0 <=? i) && (i <? Z.of_nat (length results))
  then Ok (<[Z.to_nat i := c]> results)
  else Panic "index out of range".

(** The body of the [for i = 0; i < threads; i++] loop of
    [GetDownloadChunks].  [fuel] bounds the number of iterations; the
    planner supplies [threads + 1]. *)
Fixpoint GetDownloadChunks_loop (size threads chunkSize : Z)
    (fuel : nat) (i : Z) (results : list DownloadChunk)
    : result (list DownloadChunk) :=
  match fuel with
  | O => OutOfFuel
  | S fuel' =>
      if i <? threads then
        let c :=
          if i =? U64.sub threads 1 then
            {| Start := U64.mul i chunkSize;
               End := U64.add (U64.mul i chunkSize)
                              (U64.sub size (U64.mul i chunkSize)) |}
          else
            {| Start := U64.mul i chunkSize;
               End := U64.add (U64.mul i chunkSize) chunkSize |} in
        results' ← store results i c;
        GetDownloadChunks_loop size threads chunkSize fuel' (U64.add i 1) results'
      else Ok results
  end.

(** [runtime.maxAlloc], the largest allocation the Go runtime accepts:
    [1 << 48] on the 64-bit platforms with 48-bit heap addresses
    (linux/amd64, linux/arm64 and the like). *)
Definition maxAlloc : Z := 2 ^ 48.

(** The size of a [DownloadChunk]: two [uint64]. *)
Definition chunk_bytes : Z := 16.

(** [make([]DownloadChunk, n)] for a [uint64] [n]: [runtime.makeslice]
    panics when the bytes asked for exceed [maxAlloc], which includes every
    length that is negative as an [int].  Memory itself is not modelled: a
    slice within the limit is taken to be allocated. *)
Definition make_chunks (n : Z) : result (list DownloadChunk) :=
  if maxAlloc <? chunk_bytes * n then Panic "makeslice: len out of range"
  else Ok (replicate (Z.to_nat n) (mkChunk 0 0)).

(** [func GetDownloadChunks(size uint64, threads uint64) []DownloadChunk].
    The division panics when [threads] is zero, and [make] when [threads]
    is more than the allocator takes. *)
Definition GetDownloadChunks (size threads : Z) : result (list DownloadChunk) :=
  if threads =? 0 then Panic "integer divide by zero"
  else
    let chunkSize := size / threads in
    results ← make_chunks threads;
    GetDownloadChunks_loop size threads chunkSize (S (Z.to_nat threads)) 0 results.


(** ** Text: [%d], errors, [strconv.ParseInt] *)

(** A Go [error] is modelled by its message; [nil] is [None]. *)
Definition error : Type := string.

(** The verb [%d]. *)
Definition fmt_d (z : Z) : string := NilZero.string_of_int (Z.to_int z).



Module strconv.

Inductive Err : Type := ErrSyntax | ErrRange.

(** [strconv.NumError] *)
Record NumError : Type := mkNumError { Func : string; Num : string; Cause : Err }.

Definition dquote : string := String (ascii_of_nat 34) EmptyString.

(** The method [Error()] of a [NumError]; the escaping that [strconv.Quote] applies to
    unprintable bytes is not modelled. *)
Definition Error (e : NumError) : error :=
  "strconv." +:+ Func e +:+ ": parsing " +:+ dquote +:+ Num e +:+ dquote +:+ ": "
    +:+ match Cause e with
        | ErrSyntax => "invalid syntax"
        | ErrRange => "value out of range"
        end.

(** The value of a byte as a base-10 digit. *)
Definition digit (c : ascii) : option Z :=
  let n := Z.of_nat (nat_of_ascii c) in
  if (48 <=? n) && (n <=? 57) then Some (n - 48) else None.

(** Smallest number such that [cutoff * 10 > maxUint64]. *)
Definition cutoff : Z := U64.max / 10 + 1.

(** The digit loop of [ParseUint(s, 10, 64)]: the accumulator [n] is a
    [uint64]; both overflow tests are the library's. *)
Fixpoint ParseUint_loop (s : string) (n : Z) : Err + Z :=
  match s with
  | EmptyString => inr n
  | String c s' =>
      match digit c with
      | None => inl ErrSyntax
      | Some d =>
          if cutoff <=? n then inl ErrRange
          else
            let n10 := U64.mul n 10 in
            let n1 := U64.add n10 d in
            if (n1 <? n10) || (U64.max <? n1) then inl ErrRange
            else ParseUint_loop s' n1
      end
  end.

Definition ParseUint (s : string) : Err + Z :=
  match s with
  | EmptyString => inl ErrSyntax
  | _ => ParseUint_loop s 0
  end.

(** [strconv.ParseInt(s, 10, 64)]: an optional sign, then [ParseUint],
    then the signed range test against [1 << 63]. *)
Definition ParseInt (s : string) : NumError + Z :=
  match s with
  | EmptyString => inl (mkNumError "ParseInt" s ErrSyntax)
  | String c rest =>
      let neg := Ascii.eqb c "-" in
      let body := if Ascii.eqb c "+" || neg then rest else s in
      match ParseUint body with
      | inl e => inl (mkNumError "ParseInt" s e)
      | inr un =>
          let cutoff := 2 ^ 63 in
          if negb neg && (cutoff <=? un) then inl (mkNumError "ParseInt" s ErrRange)
          else if neg && (cutoff <? un) then inl (mkNumError "ParseInt" s ErrRange)
          else inr (if neg then - un else un)
      end
  end.

End strconv.

(** ** HTTP messages and the outside world *)

(** [http.Header] is [map[string][]string]. *)
Record Request : Type :=
  mkRequest { Method : string; URL : string; ReqHeader : gmap string (list string) }.

Record Response : Type :=
  mkResponse { StatusCode : Z; Header : gmap string (list string); Body : list Byte.byte }.

Definition StatusPartialContent : Z := 206.

(** What the environment answers.  [http_do] and the two write faults are
    indexed by the chunk task that asks. *)
Record World : Type := mkWorld {
  http_head : string -> error + Response;            (* http.Head(url) *)
  create_err : string -> option error;               (* os.Create(output) *)
  new_request_err : string -> option error;          (* http.NewRequest("GET", url, nil) *)
  http_do : nat -> Request -> error + Response;      (* http.DefaultClient.Do(req) *)
  seek_fault : nat -> option error;                  (* f.Seek refused by the system *)
  copy_fault : nat -> option (nat * error)           (* io.Copy stops after so many bytes *)
}.

(** What the program does that the outside can see. *)
Inductive Event : Type :=
| EvHead (url : string)
| EvRequest (k : nat) (req : Request)
| EvWrite (k : nat) (off : Z) (data : list Byte.byte)
| EvRecv (k : nat) (err : option error).

(** ** Error messages

    One definition per [fmt.Errorf] format of [main.go]; [%s], [%v] and
    [%w] all print the message of their argument. *)

Definition errTransport (url : string) (err : error) : error :=
  "Error: Failed to make request to " +:+ url +:+ ". " +:+ err.

Definition errCreate (output : string) (err : error) : error :=
  "Error: Failed to create file " +:+ output +:+ ". " +:+ err.

Definition errNewRequest (url : string) (err : error) : error :=
  "Error: Failed to create request for " +:+ url +:+ ". " +:+ err.

Definition errStatus (url : string) (code : Z) : error :=
  "Error: Unsuccessful status code form " +:+ url +:+ " (" +:+ fmt_d code +:+ ").".

Definition errWrite (output : string) (err : error) : error :=
  "Error: Unsuccessful writing to file " +:+ output +:+ ". " +:+ err.

(** ** The size resolver *)

(** [func GetFileSize(url string) (uint64, error)], returned together with
    the requests it issued. *)
Definition GetFileSize (w : World) (url : string)
    : list Event * result (Z * option error) :=
  ([EvHead url],
   match http_head w url with
   | inl err => Ok (0, Some (errTransport url err))
   | inr resp =>
       match Header resp !! "Content-Length" with
       | None => Ok (0, Some "Error: Failed to determine download size.")
       | Some contentSize =>
           match contentSize with
           | [] => Panic "index out of range [0] with length 0"
           | v :: _ =>
               match strconv.ParseInt v with
               | inl err =>
                   Ok (0, Some ("Error: Failed to determine download size. "
                                  +:+ strconv.Error err))
               | inr size => Ok (U64.of_int64 size, None)
               end
           end
       end
   end).


(** ** The output file *)

(** An [os.File] opened by [os.Create]: one shared cursor. *)
Record File : Type := mkFile { closed : bool; cursor : Z; contents : list Byte.byte }.

(** Writing [data] at offset [off]; a gap past the end reads as zeros, and
    writing nothing changes nothing. *)
Definition write_at (off : Z) (data old : list Byte.byte) : list Byte.byte :=
  match data with
  | [] => old
  | _ =>
      let o := Z.to_nat off in
      take o old ++ replicate (o - length old)%nat Byte.x00 ++ data
        ++ drop (o + length data)%nat old
  end.

(** [f.Seek(off, 0)] by task [k].  An error is given by its cause alone:
    the [seek <path>:] that [os.PathError] puts before it is left out. *)
Definition Seek (w : World) (k : nat) (off : Z) (f : File) : error + File :=
  if closed f then inl "file already closed"
  else match seek_fault w k with
       | Some e => inl e
       | None =>
           if off <? 0 then inl "invalid argument"
           else inr (mkFile (closed f) off (contents f))
       end.

(** [io.Copy(f, body)] by task [k]: the bytes that reached the file, the
    file afterwards, and the error if the copy stopped early. *)
Definition Copy (w : World) (k : nat) (body : list Byte.byte) (f : File)
    : option (list Byte.byte) * File * option error :=
  if closed f then (None, f, Some "file already closed")
  else
    let '(data, err) :=
      match copy_fault w k with
      | Some (n, e) => (take n body, Some e)
      | None => (body, None)
      end in
    (Some data,
     mkFile (closed f) (cursor f + Z.of_nat (length data))
            (write_at (cursor f) data (contents f)),
     err).

(** ** The fetch coordinator *)

(** Where a chunk goroutine stands. *)
Inductive TaskPc : Type :=
| TSpawned                                   (* started, nothing done yet *)
| TLocking (resp : Response)                 (* got 206, at mutex.Lock() *)
| TSeeking (resp : Response)                 (* holds the mutex, at f.Seek *)
| TCopying (resp : Response)                 (* holds the mutex, at io.Copy *)
| TSending (err : option error) (locked : bool)
                                             (* blocked in errChan <- err;
                                                locked: the mutex is still held *)
| TUnlocking                                 (* error sent, at mutex.Unlock() *)
| TExited.                                   (* past its send and its Unlock:
                                                the return and the deferred
                                                resp.Body.Close() are not
                                                told apart from it *)

Record Task : Type := mkTask { chunk : DownloadChunk; pc : TaskPc }.

(** Where the calling goroutine stands. *)
Inductive CoordPc : Type :=
| CLoop (i : nat)                  (* receive loop, at iteration i *)
| CExit (ret : option error)       (* result chosen, deferred f.Close() pending *)
| CReturned (ret : option error).  (* DownloadChunks has returned *)

Record State : Type := mkState {
  tasks : list Task;
  mutex : bool;
  file : File;
  coord : CoordPc;
  trace : list Event
}.

Definition set_pc (k : nat) (p : TaskPc) (s : State) : State :=
  mkState (alter (fun t => mkTask (chunk t) p) k (tasks s))
          (mutex s) (file s) (coord s) (trace s).
Definition set_mutex (b : bool) (s : State) : State :=
  mkState (tasks s) b (file s) (coord s) (trace s).
Definition set_file (f : File) (s : State) : State :=
  mkState (tasks s) (mutex s) f (coord s) (trace s).
Definition set_coord (c : CoordPc) (s : State) : State :=
  mkState (tasks s) (mutex s) (file s) c (trace s).
Definition log (e : Event) (s : State) : State :=
  mkState (tasks s) (mutex s) (file s) (coord s) (trace s ++ [e]).

(** [fmt.Sprintf("bytes=%d-%d", start, end)] *)
Definition chunkHeader (start end_ : Z) : string :=
  "bytes=" +:+ fmt_d start +:+ "-" +:+ fmt_d end_.

(** The request of lines 118-124: [GET url] with the [Range] header set. *)
Definition chunkRequest (url : string) (start end_ : Z) : Request :=
  mkRequest "GET" url (<["Range" := [chunkHeader start end_]]> ∅).

Section Coordinator.

Context (w : World) (url output : string).

(** The next local step of goroutine [k]; [None] when it is blocked or
    gone.  Building the request, sending it and testing the status touch
    nothing shared and make one step. *)
Definition run_task (k : nat) (s : State) : option State :=
  t ← tasks s !! k;
  match pc t with
  | TSpawned =>
      match new_request_err w url with
      | Some err => Some (set_pc k (TSending (Some (errNewRequest url err)) false) s)
      | None =>
          let req := chunkRequest url (Start (chunk t)) (End (chunk t)) in
          let s := log (EvRequest k req) s in
          match http_do w k req with
          | inl err => Some (set_pc k (TSending (Some (errTransport url err)) false) s)
          | inr resp =>
              if StatusCode resp =? StatusPartialContent
              then Some (set_pc k (TLocking resp) s)
              else Some (set_pc k (TSending (Some (errStatus url (StatusCode resp))) false) s)
          end
      end
  | TLocking resp =>
      if mutex s then None
      else Some (set_pc k (TSeeking resp) (set_mutex true s))
  | TSeeking resp =>
      match Seek w k (U64.to_int64 (Start (chunk t))) (file s) with
      | inl err => Some (set_pc k (TSending (Some (errWrite output err)) true) s)
      | inr f => Some (set_pc k (TCopying resp) (set_file f s))
      end
  | TCopying resp =>
      let off := cursor (file s) in
      let '(written, f, err) := Copy w k (Body resp) (file s) in
      let s := set_file f s in
      let s := match written with
               | Some data => log (EvWrite k off data) s
               | None => s
               end in
      match err with
      | Some err => Some (set_pc k (TSending (Some (errWrite output err)) true) s)
      | None => Some (set_pc k (TSending None false) (set_mutex false s))
      end
  | TSending _ _ => None
  | TUnlocking => Some (set_pc k TExited (set_mutex false s))
  | TExited => None
  end.

(** [err := <-errChan] meeting the send of goroutine [k]: the channel is
    unbuffered, so the two happen together.  A sender with nothing left but
    its return goes to [TExited] in the same step; the return itself and
    the deferred [resp.Body.Close()] touch no shared state and are not
    steps of their own. *)
Definition recv_from (k : nat) (s : State) : option State :=
  match coord s with
  | CLoop i =>
      if decide (i < length (tasks s))%nat then
        t ← tasks s !! k;
        match pc t with
        | TSending err locked =>
            let s := set_pc k (if locked then TUnlocking else TExited) s in
            let s := log (EvRecv k err) s in
            Some (set_coord match err with
                            | Some e => CExit (Some e)
                            | None => CLoop (S i)
                            end s)
        | _ => None
        end
      else None
  | _ => None
  end.

(** The steps of the caller that need no partner: leaving the loop, and
    the deferred [f.Close()] on the way out. *)
Definition run_coord (s : State) : option State :=
  match coord s with
  | CLoop i =>
      if decide (i < length (tasks s))%nat then None
      else Some (set_coord (CExit None) s)
  | CExit ret =>
      Some (set_coord (CReturned ret)
              (set_file (mkFile true (cursor (file s)) (contents (file s))) s))
  | CReturned _ => None
  end.

(** What the scheduler may pick. *)
Inductive Pick : Type := Run (k : nat) | Recv (k : nat) | Coord.

Definition step (p : Pick) (s : State) : option State :=
  match p with
  | Run k => run_task k s
  | Recv k => recv_from k s
  | Coord => run_coord s
  end.

(** A pick that is not enabled leaves the state as it is. *)
Definition exec (s : State) (p : Pick) : State := default s (step p s).

Definition run (sched : list Pick) (s : State) : State := foldl exec s sched.

(** [DownloadChunks] up to the end of the launch loop: the file is
    created, one goroutine per chunk is started with its [Start] and
    [End], and the caller enters the receive loop. *)
Definition DownloadChunks_start (chunks : list DownloadChunk) : State :=
  match create_err w output with
  | Some err =>
      mkState [] false (mkFile true 0 []) (CReturned (Some (errCreate output err))) []
  | None =>
      mkState ((fun c => mkTask c TSpawned) <$> chunks) false (mkFile false 0 [])
              (CLoop 0) []
  end.

(** [func DownloadChunks(url string, chunks []DownloadChunk, output string) error]
    under the schedule [sched]. *)
Definition DownloadChunks (chunks : list DownloadChunk) (sched : list Pick) : State :=
  run sched (DownloadChunks_start chunks).

End Coordinator.

(** The schedule that serves the tasks one after the other: task [k] runs
    up to its send, the caller receives from it, the task finishes; at the
    end the caller leaves and closes the file. *)
Definition round (k : nat) : list Pick :=
  [Run k; Run k; Run k; Run k; Recv k; Run k].

Definition sequential (n : nat) : list Pick :=
  flat_map round (seq 0 n) ++ [Coord; Coord].

(** The caller is at iteration [k] and task [k], on chunk [c], stands at
    [p] while the mutex is [m]. *)
Definition serving (k : nat) (c : DownloadChunk) (p : TaskPc) (m : bool)
    (s : State) : Prop :=
  tasks s !! k = Some (mkTask c p) /\ mutex s = m /\ coord s = CLoop k
  /\ (k < length (tasks s))%nat.

(** Between [s] and [s'] only task [k] moved. *)
Definition same_others (k : nat) (s s' : State) : Prop :=
  length (tasks s') = length (tasks s)
  /\ forall j, j <> k -> tasks s' !! j = tasks s !! j.

(** The value [DownloadChunks] returned, once it has. *)
Definition returned (s : State) : option (option error) :=
  match coord s with
  | CReturned ret => Some ret
  | _ => None
  end.

(** The outcomes the caller received, in the order of arrival. *)
Definition received (tr : list Event) : list (nat * option error) :=
  omap (fun e => match e with EvRecv k err => Some (k, err) | _ => None end) tr.

Arguments received : simpl never.

(** The file contents that a trace of writes produces. *)
Definition replay (tr : list Event) : list Byte.byte :=
  foldl (fun c e => match e with EvWrite _ off data => write_at off data c | _ => c end)
        [] tr.

Arguments replay : simpl never.

(** ** The command line *)

(** Lines 180-189 of [main]: the thread count from [os.Args[2]]. *)
Definition main_threads (arg : string) : error + Z :=
  match strconv.ParseInt arg with
  | inl err => inl ("Error: Invalid thread number. " +:+ strconv.Error err)
  | inr t =>
      if t <=? 0 then inl "Error: Invalid thread number."
      else inr (U64.of_int64 t)
  end.

(** Lines 173-191 of [main]: size, thread count, plan. *)
Definition main_plan (w : World) (url arg : string)
    : result (error + list DownloadChunk) :=
  '(downloadSize, err) ← (GetFileSize w url).2;
  match err with
  | Some e => Ok (inl e)
  | None =>
      match main_threads arg with
      | inl e => Ok (inl e)
      | inr threads =>
          chunks ← GetDownloadChunks downloadSize threads;
          Ok (inr chunks)
      end
  end.

(** ** Notions the statements use *)

(** The chunk that the planner's loop body computes at index [k], without
    the wrap-around. *)
Definition planned (size threads : Z) (k : nat) : DownloadChunk :=
  let chunkSize := size / threads in
  let i := Z.of_nat k in
  if i =? threads - 1
  then mkChunk (i * chunkSize) size
  else mkChunk (i * chunkSize) (i * chunkSize + chunkSize).

(** A plan splits [[0, size)] into consecutive half-open ranges
    [[Start, End)]: it starts at 0, every range ends where the next one
    starts, the last one ends at [size], and every offset below [size] lies
    in exactly one range. *)
Record partitions (size : Z) (plan : list DownloadChunk) : Prop := {
  part_first : exists c, head plan = Some c /\ Start c = 0;
  part_next : forall k c d,
    plan !! k = Some c -> plan !! S k = Some d -> End c = Start d;
  part_last : exists c, last plan = Some c /\ End c = size;
  part_ordered : forall c, c ∈ plan -> Start c <= End c;
  part_cover : forall x,
    0 <= x < size <-> exists k c, plan !! k = Some c /\ Start c <= x < End c;
  part_disjoint : forall x j k c d,
    plan !! j = Some c -> plan !! k = Some d ->
    Start c <= x < End c -> Start d <= x < End d -> j = k
}.

(** The number that a string of decimal digits writes, read without any
    bound. *)
Fixpoint digits_value (s : string) (acc : Z) : option Z :=
  match s with
  | EmptyString => Some acc
  | String c s' =>
      match strconv.digit c with
      | Some d => digits_value s' (10 * acc + d)
      | None => None
      end
  end.

Definition decimal_nat (s : string) : option Z :=
  match s with
  | EmptyString => None
  | _ => digits_value s 0
  end.

(** A decimal integer: an optional sign and at least one digit. *)
Definition decimal_int (s : string) : option Z :=
  match s with
  | EmptyString => None
  | String c rest =>
      if Ascii.eqb c "-" then Z.opp <$> decimal_nat rest
      else if Ascii.eqb c "+" then decimal_nat rest
      else decimal_nat s
  end.

(** The text is a decimal integer that fits a Go [int64]. *)
Definition int64_decimal (s : string) (n : Z) : Prop :=
  decimal_int s = Some n /\ - 2 ^ 63 <= n < 2 ^ 63.

(** Task [k], working on chunk [c], was answered [resp] with status 206. *)
Definition got206 (w : World) (url : string) (k : nat) (c : DownloadChunk)
    (resp : Response) : Prop :=
  new_request_err w url = None
  /\ http_do w k (chunkRequest url (Start c) (End c)) = inr resp
  /\ StatusCode resp = StatusPartialContent.

(** What task [k] may report in the world [w]: the failure of the stage
    at which the world stops it, or success after a 206. *)
Definition outcome (w : World) (url output : string) (k : nat) (c : DownloadChunk)
    (err : option error) : Prop :=
  match new_request_err w url with
  | Some x => err = Some (errNewRequest url x)
  | None =>
      match http_do w k (chunkRequest url (Start c) (End c)) with
      | inl x => err = Some (errTransport url x)
      | inr resp =>
          if StatusCode resp =? StatusPartialContent
          then err = None \/ exists x, err = Some (errWrite output x)
          else err = Some (errStatus url (StatusCode resp))
      end
  end.

Definition pc_ok (w : World) (url output : string) (k : nat) (t : Task) : Prop :=
  match pc t with
  | TLocking resp | TSeeking resp | TCopying resp => got206 w url k (chunk t) resp
  | TSending err _ => outcome w url output k (chunk t) err
  | TSpawned | TUnlocking | TExited => True
  end.

Definition all_nil (l : list (nat * option error)) : Prop :=
  Forall (fun p => p.2 = None) l.

(** The caller's position against what it has received so far. *)
Definition coord_ok (n : nat) (c : CoordPc) (rs : list (nat * option error)) : Prop :=
  match c with
  | CLoop i => i = length rs /\ (i <= n)%nat /\ all_nil rs
  | CExit None | CReturned None => length rs = n /\ all_nil rs
  | CExit (Some e) | CReturned (Some e) =>
      exists pre k, rs = pre ++ [(k, Some e)] /\ all_nil pre
  end.

(** What holds of every state of a download whose file was created. *)
Record invariant (w : World) (url output : string) (chunks : list DownloadChunk)
    (s : State) : Prop := {
  inv_chunks : chunk <$> tasks s = chunks;
  inv_pc : forall k t, tasks s !! k = Some t -> pc_ok w url output k t;
  inv_request : forall k req, EvRequest k req ∈ trace s ->
    exists c, chunks !! k = Some c /\ req = chunkRequest url (Start c) (End c);
  inv_write : forall k off data, EvWrite k off data ∈ trace s ->
    exists c resp, chunks !! k = Some c /\ got206 w url k c resp;
  inv_recv : forall k err, (k, err) ∈ received (trace s) ->
    exists t, tasks s !! k = Some t
      /\ (pc t = TUnlocking \/ pc t = TExited)
      /\ outcome w url output k (chunk t) err;
  inv_nodup : NoDup (received (trace s)).*1;
  inv_coord : coord_ok (length chunks) (coord s) (received (trace s));
  inv_file : contents (file s) = replay (trace s)
}.

(** ** The whole of [main] *)

(** What a run of [main] ends with: the usage line, an error on standard
    error before any download, or the state of the download it started. *)
Inductive MainOutcome : Type :=
| MainUsage
| MainError (msg : error)
| MainDownload (s : State).

(** [os.Args[i]]: an index outside the slice panics. *)
Definition os_arg (args : list string) (i : nat) : result string :=
  match args !! i with
  | Some a => Ok a
  | None => Panic "index out of range"
  end.

(** [func main()], on the arguments [args] (the program name first) and
    with the goroutines of the download scheduled by [sched]. *)
Definition main (w : World) (args : list string) (sched : list Pick)
    : result MainOutcome :=
  if (length args <? 3)%nat then Ok MainUsage
  else
    url ← os_arg args 1;
    '(downloadSize, err) ← (GetFileSize w url).2;
    match err with
    | Some e => Ok (MainError e)
    | None =>
        arg ← os_arg args 2;
        match main_threads arg with
        | inl e => Ok (MainError e)
        | inr threads =>
            chunks ← GetDownloadChunks downloadSize threads;
            url ← os_arg args 1;
            output ← os_arg args 3;
            Ok (MainDownload (DownloadChunks w url output chunks sched))
        end
    end.

(** ** The steps of a download, one by one *)

(** Every step that [step] can take, by the line of [DownloadChunks] that
    takes it. *)
Inductive transition (w : World) (url output : string) (s : State) : State -> Prop :=
| T_request_refused k t x :
    tasks s !! k = Some t -> pc t = TSpawned ->
    new_request_err w url = Some x ->
    transition w url output s
      (set_pc k (TSending (Some (errNewRequest url x)) false) s)
| T_transport_failed k t x :
    tasks s !! k = Some t -> pc t = TSpawned ->
    new_request_err w url = None ->
    http_do w k (chunkRequest url (Start (chunk t)) (End (chunk t))) = inl x ->
    transition w url output s
      (set_pc k (TSending (Some (errTransport url x)) false)
         (log (EvRequest k (chunkRequest url (Start (chunk t)) (End (chunk t)))) s))
| T_status_rejected k t resp :
    tasks s !! k = Some t -> pc t = TSpawned ->
    new_request_err w url = None ->
    http_do w k (chunkRequest url (Start (chunk t)) (End (chunk t))) = inr resp ->
    StatusCode resp <> StatusPartialContent ->
    transition w url output s
      (set_pc k (TSending (Some (errStatus url (StatusCode resp))) false)
         (log (EvRequest k (chunkRequest url (Start (chunk t)) (End (chunk t)))) s))
| T_answered k t resp :
    tasks s !! k = Some t -> pc t = TSpawned ->
    new_request_err w url = None ->
    http_do w k (chunkRequest url (Start (chunk t)) (End (chunk t))) = inr resp ->
    StatusCode resp = StatusPartialContent ->
    transition w url output s
      (set_pc k (TLocking resp)
         (log (EvRequest k (chunkRequest url (Start (chunk t)) (End (chunk t)))) s))
| T_locked k t resp :
    tasks s !! k = Some t -> pc t = TLocking resp ->
    mutex s = false ->
    transition w url output s (set_pc k (TSeeking resp) (set_mutex true s))
| T_seek_failed k t resp x :
    tasks s !! k = Some t -> pc t = TSeeking resp ->
    Seek w k (U64.to_int64 (Start (chunk t))) (file s) = inl x ->
    transition w url output s
      (set_pc k (TSending (Some (errWrite output x)) true) s)
| T_sought k t resp f :
    tasks s !! k = Some t -> pc t = TSeeking resp ->
    Seek w k (U64.to_int64 (Start (chunk t))) (file s) = inr f ->
    transition w url output s (set_pc k (TCopying resp) (set_file f s))
| T_copy_refused k t resp :
    tasks s !! k = Some t -> pc t = TCopying resp ->
    closed (file s) = true ->
    transition w url output s
      (set_pc k (TSending (Some (errWrite output "file already closed")) true)
         (set_file (file s) s))
| T_copy_failed k t resp n x :
    tasks s !! k = Some t -> pc t = TCopying resp ->
    closed (file s) = false ->
    copy_fault w k = Some (n, x) ->
    transition w url output s
      (set_pc k (TSending (Some (errWrite output x)) true)
         (log (EvWrite k (cursor (file s)) (take n (Body resp)))
            (set_file
               (mkFile false (cursor (file s) + Z.of_nat (length (take n (Body resp))))
                  (write_at (cursor (file s)) (take n (Body resp)) (contents (file s))))
               s)))
| T_copied k t resp :
    tasks s !! k = Some t -> pc t = TCopying resp ->
    closed (file s) = false ->
    copy_fault w k = None ->
    transition w url output s
      (set_pc k (TSending None false)
         (set_mutex false
            (log (EvWrite k (cursor (file s)) (Body resp))
               (set_file
                  (mkFile false (cursor (file s) + Z.of_nat (length (Body resp)))
                     (write_at (cursor (file s)) (Body resp) (contents (file s))))
                  s))))
| T_unlocked k t :
    tasks s !! k = Some t -> pc t = TUnlocking ->
    transition w url output s (set_pc k TExited (set_mutex false s))
| T_received k t i err locked :
    coord s = CLoop i -> (i < length (tasks s))%nat ->
    tasks s !! k = Some t -> pc t = TSending err locked ->
    transition w url output s
      (set_coord match err with
                 | Some e => CExit (Some e)
                 | None => CLoop (S i)
                 end
         (log (EvRecv k err)
            (set_pc k (if locked then TUnlocking else TExited) s)))
| T_left i :
    coord s = CLoop i -> ~ (i < length (tasks s))%nat ->
    transition w url output s (set_coord (CExit None) s)
| T_closed ret :
    coord s = CExit ret ->
    transition w url output s
      (set_coord (CReturned ret)
         (set_file (mkFile true (cursor (file s)) (contents (file s))) s)).

(** All the picks of a schedule are enabled when their turn comes. *)
Fixpoint enabled (w : World) (url output : string) (sched : list Pick) (s : State)
    : Prop :=
  match sched with
  | [] => True
  | p :: sched' =>
      match step w url output p s with
      | Some s' => enabled w url output sched' s'
      | None => False
      end
  end.

(** A numeral of more than one digit that begins with [0]. *)
Definition leading_zero (s : string) : bool :=
  match s with
  | String "0" (String _ _) => true
  | _ => false
  end.

(** Every task that is past its first step, in a world that lets requests
    be built, has sent the request for its chunk. *)
Definition requests_sent (w : World) (url : string) (s : State) : Prop :=
  forall k t,
    tasks s !! k = Some t -> pc t <> TSpawned ->
    new_request_err w url = None ->
    EvRequest k (chunkRequest url (Start (chunk t)) (End (chunk t))) ∈ trace s.

(** ** The lock, the cursor and the traffic of a download *)

(** A task between [mutex.Lock()] and [mutex.Unlock()]. *)
Definition holds (p : TaskPc) : bool :=
  match p with
  | TSeeking _ | TCopying _ | TSending _ true | TUnlocking => true
  | TSpawned | TLocking _ | TSending _ false | TExited => false
  end.

(** A task that has not come to its [io.Copy] yet. *)
Definition before_copy (p : TaskPc) : bool :=
  match p with
  | TSpawned | TLocking _ | TSeeking _ | TCopying _ => true
  | TSending _ _ | TUnlocking | TExited => false
  end.

Definition is_returned (c : CoordPc) : bool :=
  match c with
  | CReturned _ => true
  | CLoop _ | CExit _ => false
  end.

(** The tasks that have sent a request, and those that have written, in
    the order in which they did. *)
Definition requesters (tr : list Event) : list nat :=
  omap (fun e => match e with EvRequest k _ => Some k | _ => None end) tr.

Definition writers (tr : list Event) : list nat :=
  omap (fun e => match e with EvWrite k _ _ => Some k | _ => None end) tr.

Arguments requesters : simpl never.
Arguments writers : simpl never.

(** The lock protects the cursor: at most one task is between [Lock] and
    [Unlock], the mutex is taken exactly when there is one, and the cursor
    of a task about to copy is where its seek put it. *)
Record exclusion (s : State) : Prop := {
  ex_range : forall k t, tasks s !! k = Some t -> U64.in_range (Start (chunk t));
  ex_unique : forall j k tj tk,
    tasks s !! j = Some tj -> tasks s !! k = Some tk ->
    holds (pc tj) = true -> holds (pc tk) = true -> j = k;
  ex_free : mutex s = false ->
    forall k t, tasks s !! k = Some t -> holds (pc t) = false;
  ex_held : mutex s = true ->
    exists k t, tasks s !! k = Some t /\ holds (pc t) = true;
  ex_cursor : forall k t resp,
    tasks s !! k = Some t -> pc t = TCopying resp ->
    cursor (file s) = Start (chunk t);
  ex_closed : closed (file s) = is_returned (coord s)
}.

(** What the tasks have done so far, read off the trace. *)
Record discipline (w : World) (url : string) (s : State) : Prop := {
  di_requests : NoDup (requesters (trace s));
  di_writers : NoDup (writers (trace s));
  di_spawned : forall k t,
    tasks s !! k = Some t -> pc t = TSpawned -> k ∉ requesters (trace s);
  di_unwritten : forall k t,
    tasks s !! k = Some t -> before_copy (pc t) = true -> k ∉ writers (trace s);
  di_write : forall k off data,
    EvWrite k off data ∈ trace s ->
    exists t resp m,
      tasks s !! k = Some t /\ got206 w url k (chunk t) resp
      /\ off = Start (chunk t) /\ data = take m (Body resp);
  di_success : forall k t locked,
    tasks s !! k = Some t -> pc t = TSending None locked ->
    locked = false
    /\ exists resp, got206 w url k (chunk t) resp
         /\ EvWrite k (Start (chunk t)) (Body resp) ∈ trace s;
  di_reported : forall k,
    (k, None) ∈ received (trace s) ->
    exists t resp,
      tasks s !! k = Some t /\ pc t = TExited
      /\ got206 w url k (chunk t) resp
      /\ EvWrite k (Start (chunk t)) (Body resp) ∈ trace s;
  di_done : forall k t,
    tasks s !! k = Some t -> pc t = TUnlocking \/ pc t = TExited ->
    exists err, (k, err) ∈ received (trace s)
}.

(** How far a goroutine is from its end, and a whole download from its. *)
Definition rank (p : TaskPc) : nat :=
  match p with
  | TSpawned => 6
  | TLocking _ => 5
  | TSeeking _ => 4
  | TCopying _ => 3
  | TSending _ _ => 2
  | TUnlocking => 1
  | TExited => 0
  end.

Definition coord_rank (c : CoordPc) : nat :=
  match c with
  | CLoop _ => 2
  | CExit _ => 1
  | CReturned _ => 0
  end.

Definition weight (s : State) : nat :=
  (sum_list ((fun t => rank (pc t)) <$> tasks s) + coord_rank (coord s))%nat.

(** ** The resource behind the URL *)

(** Offset [i] lies in the span of some write of the trace. *)
Definition covered (tr : list Event) (i : nat) : Prop :=
  exists k off data,
    EvWrite k off data ∈ tr /\ 0 <= off
    /\ (Z.to_nat off <= i < Z.to_nat off + length data)%nat.

(** Every write of the trace puts bytes of [resource] at their own
    offset. *)
Definition faithful (resource : list Byte.byte) (tr : list Event) : Prop :=
  forall k off data,
    EvWrite k off data ∈ tr ->
    0 <= off /\ exists m, data = take m (drop (Z.to_nat off) resource).

(** The server answers the range request of a chunk, when it answers 206,
    with bytes of [resource] that start at the chunk's [Start] and reach
    its [End] at least. *)
Definition honest (w : World) (url : string) (resource : list Byte.byte)
    (chunks : list DownloadChunk) : Prop :=
  forall k c resp,
    chunks !! k = Some c ->
    http_do w k (chunkRequest url (Start c) (End c)) = inr resp ->
    StatusCode resp = StatusPartialContent ->
    exists n,
      Body resp = take n (drop (Z.to_nat (Start c)) resource)
      /\ End c <= Start c + Z.of_nat n.

(** ** Worlds for the examples *)

(** A server that answers [HEAD] with the given [Content-Length] values
    and chunk [k] with the status [status k] and the body [body k]; the
    file system refuses the seek of task [k] when [refuse k] says so. *)
Definition example_world (lengths : option (list string)) (status : nat -> Z)
    (body : nat -> string) (refuse : nat -> option error) : World :=
  mkWorld
    (fun _ => inr (mkResponse 200
                     match lengths with
                     | Some l => {["Content-Length" := l]}
                     | None => ∅
                     end []))
    (fun _ => None)
    (fun _ => None)
    (fun k _ => inr (mkResponse (status k) ∅ (list_byte_of_string (body k))))
    refuse
    (fun _ => None).

(** * Properties *)

(** ** Machine integers *)

Lemma wrap_small z : U64.in_range z -> U64.wrap z = z.
Proof. intros H. apply Z.mod_small, H. Qed.

Lemma wrap_range z : U64.in_range (U64.wrap z).
Proof. apply Z.mod_pos_bound. reflexivity. Qed.

(** ** The chunk planner *)

Section Planner.

Variables size threads : Z.
Hypothesis size_range : U64.in_range size.
Hypothesis threads_range : 1 <= threads < U64.modulus.

Local Abbreviation chunkSize := (size / threads).

Lemma chunkSize_bounds : 0 <= chunkSize /\ threads * chunkSize <= size.
Proof.
  destruct size_range. split.
  - apply Z.div_pos; lia.
  - apply Z.mul_div_le. lia.
Qed.

Lemma offset_bounds (i : Z) :
  0 <= i < threads -> 0 <= i * chunkSize /\ i * chunkSize + chunkSize <= size.
Proof. destruct chunkSize_bounds. nia. Qed.

(** One iteration of the loop computes [planned]: nothing wraps. *)
Lemma loop_body_planned (k : nat) :
  Z.of_nat k < threads ->
  (if Z.of_nat k =? U64.sub threads 1 then
     {| Start := U64.mul (Z.of_nat k) chunkSize;
        End := U64.add (U64.mul (Z.of_nat k) chunkSize)
                       (U64.sub size (U64.mul (Z.of_nat k) chunkSize)) |}
   else
     {| Start := U64.mul (Z.of_nat k) chunkSize;
        End := U64.add (U64.mul (Z.of_nat k) chunkSize) chunkSize |})
  = planned size threads k.
Proof.
  intros Hk. unfold planned.
  destruct (offset_bounds (Z.of_nat k)) as [H0 H1]; [lia|].
  destruct chunkSize_bounds as [Hc _]. destruct size_range as [_ Hs].
  assert (Hm : U64.mul (Z.of_nat k) chunkSize = Z.of_nat k * chunkSize).
  { apply wrap_small. unfold U64.in_range. lia. }
  assert (Ht : U64.sub threads 1 = threads - 1).
  { apply wrap_small. unfold U64.in_range. lia. }
  rewrite Hm, Ht. destruct (Z.of_nat k =? threads - 1); f_equal.
  - unfold U64.add, U64.sub. rewrite (wrap_small (size - _)).
    + rewrite wrap_small; [lia | unfold U64.in_range; lia].
    + unfold U64.in_range; lia.
  - apply wrap_small. unfold U64.in_range. lia.
Qed.

Lemma loop_closed_form (m k : nat) (results : list DownloadChunk) :
  length results = Z.to_nat threads ->
  (k + m)%nat = Z.to_nat threads ->
  GetDownloadChunks_loop size threads chunkSize (S m) (Z.of_nat k) results
  = Ok (take k results ++ (planned size threads <$> seq k m)).
Proof.
  revert k results. induction m as [|m IH]; intros k results Hlen Hk.
  - cbn [GetDownloadChunks_loop].
    destruct (Z.ltb_spec (Z.of_nat k) threads); [lia|].
    rewrite firstn_all2 by lia. by rewrite app_nil_r.
  - remember (S m) as fuel. cbn [GetDownloadChunks_loop]. subst fuel.
    destruct (Z.ltb_spec (Z.of_nat k) threads); [|lia].
    rewrite loop_body_planned by lia.
    unfold store.
    destruct (Z.leb_spec 0 (Z.of_nat k)); [|lia].
    destruct (Z.ltb_spec (Z.of_nat k) (Z.of_nat (length results))); [|lia].
    cbn [andb mbind result_bind]. rewrite Nat2Z.id.
    assert (Hs : U64.add (Z.of_nat k) 1 = Z.of_nat (S k)).
    { unfold U64.add. rewrite wrap_small; [lia | unfold U64.in_range; lia]. }
    rewrite Hs, IH by (rewrite ?length_insert; lia).
    f_equal. cbn [seq fmap list_fmap].
    rewrite (take_S_r _ _ (planned size threads k))
      by (apply list_lookup_insert_eq; lia).
    rewrite take_insert_ge by lia. by rewrite <- app_assoc.
Qed.

(** Within the limit of the allocator the planner returns, and what it
    returns is the list of [planned] chunks. *)
Lemma GetDownloadChunks_closed_form :
  chunk_bytes * threads <= maxAlloc ->
  GetDownloadChunks size threads
  = Ok (planned size threads <$> seq 0 (Z.to_nat threads)).
Proof.
  intros Ha. unfold GetDownloadChunks, make_chunks.
  destruct (Z.eqb_spec threads 0); [lia|].
  destruct (Z.ltb_spec maxAlloc (chunk_bytes * threads)); [lia|].
  cbn [mbind result_bind].
  apply (loop_closed_form (Z.to_nat threads) 0).
  - apply length_replicate.
  - lia.
Qed.

(** Beyond that limit [make] panics. *)
Lemma GetDownloadChunks_too_many :
  maxAlloc < chunk_bytes * threads ->
  GetDownloadChunks size threads = Panic "makeslice: len out of range".
Proof.
  intros Ha. unfold GetDownloadChunks, make_chunks.
  destruct (Z.eqb_spec threads 0); [lia|].
  by destruct (Z.ltb_spec maxAlloc (chunk_bytes * threads)); [|lia].
Qed.

(** A plan that is returned is the list of [planned] chunks. *)
Lemma GetDownloadChunks_Ok_inv (chunks : list DownloadChunk) :
  GetDownloadChunks size threads = Ok chunks ->
  chunk_bytes * threads <= maxAlloc
  /\ chunks = planned size threads <$> seq 0 (Z.to_nat threads).
Proof.
  intros Hok.
  destruct (Z.le_gt_cases (chunk_bytes * threads) maxAlloc) as [Ha|Ha].
  - split; [done|]. rewrite GetDownloadChunks_closed_form in Hok by done.
    by injection Hok.
  - rewrite GetDownloadChunks_too_many in Hok by lia. done.
Qed.

Local Abbreviation n := (Z.to_nat threads).
Local Abbreviation plan := (planned size threads <$> seq 0 n).

Lemma plan_lookup (k : nat) (c : DownloadChunk) :
  plan !! k = Some c <-> (k < n)%nat /\ c = planned size threads k.
Proof.
  rewrite list_lookup_fmap. split.
  - intros H. destruct (seq 0 n !! k) as [j|] eqn:E; [|done].
    apply lookup_seq in E as [-> ?]. by inversion H.
  - intros [? ->]. by rewrite lookup_seq_lt.
Qed.

Lemma planned_Start (k : nat) : Start (planned size threads k) = Z.of_nat k * chunkSize.
Proof. unfold planned. by destruct (_ =? _). Qed.

Lemma planned_End_last (k : nat) :
  Z.of_nat k = threads - 1 -> End (planned size threads k) = size.
Proof. intros H. unfold planned. by rewrite (proj2 (Z.eqb_eq _ _) H). Qed.

Lemma planned_End_inner (k : nat) :
  Z.of_nat k <> threads - 1 ->
  End (planned size threads k) = Z.of_nat k * chunkSize + chunkSize.
Proof. intros H. unfold planned. by rewrite (proj2 (Z.eqb_neq _ _) H). Qed.

Lemma planned_ordered (k : nat) :
  (k < n)%nat ->
  0 <= Start (planned size threads k) <= End (planned size threads k)
  /\ End (planned size threads k) <= size.
Proof.
  intros Hk. destruct (offset_bounds (Z.of_nat k)) as [H0 H1]; [lia|].
  destruct chunkSize_bounds as [Hc _]. rewrite planned_Start.
  destruct (decide (Z.of_nat k = threads - 1)) as [E|E].
  - rewrite planned_End_last by done. lia.
  - rewrite planned_End_inner by done. lia.
Qed.

Lemma plan_partitions : partitions size plan.
Proof.
  assert (Hn : (0 < n)%nat) by lia.
  destruct chunkSize_bounds as [Hc Hc'].
  split.
  - exists (planned size threads 0). split.
    + destruct (Z.to_nat threads); [lia|done].
    + rewrite planned_Start. lia.
  - intros k c d [Hk ->]%plan_lookup [Hk' ->]%plan_lookup.
    rewrite planned_Start, planned_End_inner; lia.
  - exists (planned size threads (n - 1)). split.
    + rewrite last_lookup.
      rewrite length_fmap, length_seq.
      replace (Nat.pred n) with (n - 1)%nat by lia.
      apply plan_lookup. split; [lia|done].
    + apply planned_End_last. lia.
  - intros c [k [Hk ->]%plan_lookup]%list_elem_of_lookup.
    by apply planned_ordered.
  - intros x. split.
    + intros Hx.
      destruct (decide (chunkSize = 0 \/ threads - 1 <= x / chunkSize)) as [Hl|Hi].
      * exists (n - 1)%nat, (planned size threads (n - 1)). split.
        { apply plan_lookup. split; [lia|done]. }
        rewrite planned_Start, planned_End_last by lia.
        destruct Hl as [->|Hl]; [lia|].
        destruct (decide (chunkSize = 0)) as [->|]; [lia|].
        pose proof (Z.mul_div_le x chunkSize ltac:(lia)). nia.
      * assert (0 < chunkSize) by lia.
        assert (0 <= x / chunkSize) by (apply Z.div_pos; lia).
        exists (Z.to_nat (x / chunkSize)), (planned size threads (Z.to_nat (x / chunkSize))).
        split; [apply plan_lookup; split; [lia|done]|].
        rewrite planned_Start, planned_End_inner by lia.
        rewrite Z2Nat.id by lia.
        pose proof (Z.mul_div_le x chunkSize ltac:(lia)).
        pose proof (Z.mul_succ_div_gt x chunkSize ltac:(lia)). lia.
    + intros (k & c & [Hk ->]%plan_lookup & Hx).
      pose proof (planned_ordered k Hk). lia.
  - assert (Hlt : forall x j k, (j < k)%nat -> (k < n)%nat ->
      Start (planned size threads j) <= x < End (planned size threads j) ->
      Start (planned size threads k) <= x < End (planned size threads k) -> False).
    { intros x j k Hjk Hk. rewrite !planned_Start, planned_End_inner by lia. nia. }
    intros x j k c d [Hj ->]%plan_lookup [Hk ->]%plan_lookup Hc1 Hc2.
    destruct (Nat.lt_trichotomy j k) as [?|[?|?]]; [|done|]; exfalso; eauto.
Qed.

End Planner.

(** C1: for every total size and every worker count of at least 1, every
    plan that the planner returns partitions [[0, size)]: the first range
    starts at 0, each range ends where the next starts, the last ends at
    [size], and every offset below [size] lies in exactly one range.  The
    planner does return a plan whenever the slice of [threads] chunks is
    within the limit of the allocator; beyond it [make] panics and no plan
    is returned. *)
Theorem GetDownloadChunks_partitions (size threads : Z) :
  U64.in_range size -> 1 <= threads < U64.modulus ->
  (forall plan, GetDownloadChunks size threads = Ok plan -> partitions size plan)
  /\ (chunk_bytes * threads <= maxAlloc ->
      exists plan, GetDownloadChunks size threads = Ok plan)
  /\ (maxAlloc < chunk_bytes * threads ->
      GetDownloadChunks size threads = Panic "makeslice: len out of range").
Proof.
  intros Hs Ht. split; [|split].
  - intros plan [_ ->]%GetDownloadChunks_Ok_inv; [|done..].
    by apply plan_partitions.
  - intros Ha. eexists. by apply GetDownloadChunks_closed_form.
  - intros Ha. by apply GetDownloadChunks_too_many.
Qed.

Lemma GetDownloadChunks_partitions_witness :
  exists plan, GetDownloadChunks 1000 7 = Ok plan /\ partitions 1000 plan.
Proof.
  assert (H1 : U64.in_range 1000) by (unfold U64.in_range, U64.modulus; lia).
  assert (H2 : 1 <= 7 < U64.modulus) by (unfold U64.modulus; lia).
  destruct (GetDownloadChunks_partitions 1000 7 H1 H2) as (Hpart & Hret & _).
  destruct Hret as [plan Hplan]; [unfold chunk_bytes, maxAlloc; lia|].
  exists plan. split; [exact Hplan|]. exact (Hpart plan Hplan).
Defined.

(** C3, as the code has it: for every worker count of at least 1, every
    plan that the planner returns has exactly that many chunks, whatever
    the size, so it is never empty; and when the size is 0 every one of
    them is [{0,0}].  A plan is returned whenever the slice of [threads]
    chunks is within the limit of the allocator; beyond it [make]
    panics. *)
Theorem GetDownloadChunks_plan_length (size threads : Z) :
  U64.in_range size -> 1 <= threads < U64.modulus ->
  (forall plan,
     GetDownloadChunks size threads = Ok plan ->
     length plan = Z.to_nat threads /\
     plan <> [] /\
     (size = 0 -> plan = replicate (Z.to_nat threads) (mkChunk 0 0)))
  /\ (chunk_bytes * threads <= maxAlloc ->
      exists plan, GetDownloadChunks size threads = Ok plan)
  /\ (maxAlloc < chunk_bytes * threads ->
      GetDownloadChunks size threads = Panic "makeslice: len out of range").
Proof.
  intros Hs Ht.
  split; [|split;
    [intros Ha; eexists; by apply GetDownloadChunks_closed_form
    |intros Ha; by apply GetDownloadChunks_too_many]].
  intros plan [_ ->]%GetDownloadChunks_Ok_inv; [|done..].
  split; [by rewrite length_fmap, length_seq|]. split.
  - intros E%(f_equal length). rewrite length_fmap, length_seq in E.
    simpl in E. lia.
  - intros ->. apply list_eq_same_length with (Z.to_nat threads).
    + by rewrite ?length_fmap, ?length_seq, ?length_replicate.
    + by rewrite ?length_fmap, ?length_seq, ?length_replicate.
    + intros k c d Hk. rewrite list_lookup_fmap, lookup_seq_lt by done.
      rewrite lookup_replicate_2 by done. intros [= <-] [= <-].
      unfold planned. rewrite Z.div_0_l by lia.
      destruct (_ =? _); f_equal; lia.
Qed.

Lemma GetDownloadChunks_plan_length_witness :
  exists plan,
    GetDownloadChunks 0 4 = Ok plan /\
    length plan = Z.to_nat 4 /\
    plan <> [] /\
    (0 = 0 -> plan = replicate (Z.to_nat 4) (mkChunk 0 0)).
Proof.
  assert (H1 : U64.in_range 0) by (unfold U64.in_range, U64.modulus; lia).
  assert (H2 : 1 <= 4 < U64.modulus) by (unfold U64.modulus; lia).
  destruct (GetDownloadChunks_plan_length 0 4 H1 H2) as (Hlen & Hret & _).
  destruct Hret as [plan Hplan]; [unfold chunk_bytes, maxAlloc; lia|].
  exists plan. split; [exact Hplan|]. exact (Hlen plan Hplan).
Defined.

(** C3 as stated fails: with size 0 and three workers the plan has three
    chunks, not one. *)
Lemma GetDownloadChunks_zero_size_not_capped :
  GetDownloadChunks 0 3 = Ok [mkChunk 0 0; mkChunk 0 0; mkChunk 0 0]
  /\ ~ (forall plan, GetDownloadChunks 0 3 = Ok plan -> plan = [mkChunk 0 0]).
Proof.
  split; [reflexivity|]. intros H.
  specialize (H _ eq_refl). discriminate H.
Qed.

(** C9: for size 1000 and three workers the base chunk size is 333 and the
    plan is [{0,333}, {333,666}, {666,1000}]: the remainder goes to the
    last chunk, which ends at the total size. *)
Theorem GetDownloadChunks_1000_3 :
  1000 / 3 = 333 /\
  GetDownloadChunks 1000 3 = Ok [mkChunk 0 333; mkChunk 333 666; mkChunk 666 1000].
Proof. split; reflexivity. Qed.

(** C2 as stated fails: with a worker count of 0 the planner does not act
    as with 1; the division panics. *)
Lemma GetDownloadChunks_zero_threads_panics :
  GetDownloadChunks 1000 0 = Panic "integer divide by zero"
  /\ GetDownloadChunks 1000 1 = Ok [mkChunk 0 1000]
  /\ GetDownloadChunks 1000 0 <> GetDownloadChunks 1000 1.
Proof. repeat split; try reflexivity. discriminate. Qed.

(** ** [strconv.ParseInt] reads decimal integers *)

Lemma modulus_value : U64.modulus = 18446744073709551616.
Proof. reflexivity. Qed.

Lemma max_value : U64.max = 18446744073709551615.
Proof. reflexivity. Qed.

Lemma cutoff_value : strconv.cutoff = 1844674407370955162.
Proof. reflexivity. Qed.

Lemma digit_range c d : strconv.digit c = Some d -> 0 <= d <= 9.
Proof.
  unfold strconv.digit. intros H.
  destruct (Z.leb_spec 48 (Z.of_nat (nat_of_ascii c)));
    destruct (Z.leb_spec (Z.of_nat (nat_of_ascii c)) 57);
    simpl in H; inversion H; lia.
Qed.

Lemma digits_value_ge s : forall acc m,
  0 <= acc -> digits_value s acc = Some m -> acc <= m.
Proof.
  induction s as [|c s IH]; intros acc m Ha; cbn [digits_value].
  - intros [= <-]. lia.
  - destruct (strconv.digit c) as [d|] eqn:Hd; [|done].
    apply digit_range in Hd. intros H%IH; lia.
Qed.

Lemma ParseUint_loop_spec s : forall n m,
  U64.in_range n ->
  strconv.ParseUint_loop s n = inr m <->
  digits_value s n = Some m /\ m < U64.modulus.
Proof.
  unfold U64.in_range. rewrite modulus_value.
  induction s as [|c s IH]; intros n m Hn;
    cbn [strconv.ParseUint_loop digits_value].
  - split; [intros [= <-]; split; [done|lia] | intros [[= <-] _]; done].
  - destruct (strconv.digit c) as [d|] eqn:Hd; [|split; [done|intros [? _]; done]].
    apply digit_range in Hd. rewrite cutoff_value, max_value.
    destruct (Z.leb_spec 1844674407370955162 n) as [Hc|Hc].
    { split; [done|]. intros [Hge%digits_value_ge ?]; lia. }
    assert (H10 : U64.mul n 10 = 10 * n).
    { unfold U64.mul. rewrite wrap_small; [lia|].
      unfold U64.in_range. rewrite modulus_value. lia. }
    rewrite H10. unfold U64.add, U64.wrap. rewrite modulus_value.
    destruct (decide (10 * n + d < 18446744073709551616)) as [Hs|Hs].
    + rewrite Z.mod_small by lia.
      destruct (Z.ltb_spec (10 * n + d) (10 * n)); [lia|].
      destruct (Z.ltb_spec 18446744073709551615 (10 * n + d)); [lia|].
      cbn [orb]. apply IH. lia.
    + assert (Hw : (10 * n + d) mod 18446744073709551616
                   = 10 * n + d - 18446744073709551616).
      { symmetry. apply Z.mod_unique with 1; lia. }
      rewrite Hw.
      destruct (Z.ltb_spec (10 * n + d - 18446744073709551616) (10 * n)); [|lia].
      cbn [orb]. split; [done|]. intros [Hge%digits_value_ge ?]; lia.
Qed.

Lemma ParseUint_spec s m :
  strconv.ParseUint s = inr m <-> decimal_nat s = Some m /\ m < U64.modulus.
Proof.
  destruct s as [|c s]; cbn [strconv.ParseUint decimal_nat].
  - split; [done|intros [? _]; done].
  - apply ParseUint_loop_spec. unfold U64.in_range. rewrite modulus_value. lia.
Qed.

Lemma decimal_nat_nonneg s m : decimal_nat s = Some m -> 0 <= m.
Proof.
  destruct s; [done|]. unfold decimal_nat. by apply digits_value_ge.
Qed.

(** [ParseInt] succeeds exactly on the decimal integers of the [int64]
    range, and returns their value. *)
Lemma ParseInt_spec s n : strconv.ParseInt s = inr n <-> int64_decimal s n.
Proof.
  unfold int64_decimal.
  destruct s as [|c rest]; [split; [done|intros [? _]; done]|].
  cbn [strconv.ParseInt decimal_int].
  assert (H63 : 2 ^ 63 = 9223372036854775808) by reflexivity. rewrite !H63.
  destruct (Ascii.eqb c "-") eqn:Hneg; [rewrite orb_true_r|rewrite orb_false_r];
    cbn [negb andb].
  - destruct (strconv.ParseUint rest) as [e|un] eqn:Hp.
    + split; [done|]. intros [Hd Hr].
      destruct (decimal_nat rest) as [m|] eqn:Hm; [|done].
      injection Hd as <-. pose proof (decimal_nat_nonneg _ _ Hm).
      assert (Hu : strconv.ParseUint rest = inr m).
      { apply ParseUint_spec. rewrite modulus_value. split; [done|lia]. }
      congruence.
    + apply ParseUint_spec in Hp as [Hd Hlt]. rewrite Hd. cbn.
      pose proof (decimal_nat_nonneg _ _ Hd).
      destruct (Z.ltb_spec 9223372036854775808 un).
      * split; [done|]. intros [[= <-] ?]. lia.
      * split; [intros [= <-]; split; [done|lia] | intros [[= <-] ?]; done].
  - assert (Hbody : decimal_nat (if Ascii.eqb c "+" then rest else String c rest)
                    = if Ascii.eqb c "+" then decimal_nat rest
                      else decimal_nat (String c rest)) by (by destruct (Ascii.eqb c "+")).
    rewrite <- Hbody.
    destruct (strconv.ParseUint _) as [e|un] eqn:Hp.
    + split; [done|]. intros [Hd Hr].
      pose proof (decimal_nat_nonneg _ _ Hd).
      assert (Hu : strconv.ParseUint (if Ascii.eqb c "+" then rest else String c rest)
                   = inr n).
      { apply ParseUint_spec. rewrite modulus_value. split; [done|lia]. }
      congruence.
    + apply ParseUint_spec in Hp as [Hd Hlt]. rewrite Hd.
      pose proof (decimal_nat_nonneg _ _ Hd).
      destruct (Z.leb_spec 9223372036854775808 un).
      * split; [done|]. intros [[= <-] ?]. lia.
      * split; [intros [= <-]; split; [done|lia] | intros [[= <-] ?]; done].
Qed.

Lemma ParseInt_range s n : strconv.ParseInt s = inr n -> - 2 ^ 63 <= n < 2 ^ 63.
Proof. by intros [_ ?]%ParseInt_spec. Qed.

(** ** The size resolver *)

Section SizeResolver.

Variables (w : World) (url : string).

Lemma GetFileSize_transport err :
  http_head w url = inl err ->
  (GetFileSize w url).2 = Ok (0, Some (errTransport url err)).
Proof. unfold GetFileSize. cbn. by intros ->. Qed.

Lemma GetFileSize_missing resp :
  http_head w url = inr resp ->
  Header resp !! "Content-Length" = None ->
  (GetFileSize w url).2 = Ok (0, Some "Error: Failed to determine download size.").
Proof. unfold GetFileSize. cbn. by intros -> ->. Qed.

Lemma GetFileSize_unparsed resp v rest :
  http_head w url = inr resp ->
  Header resp !! "Content-Length" = Some (v :: rest) ->
  (forall n, ~ int64_decimal v n) ->
  exists e,
    strconv.ParseInt v = inl e /\
    (GetFileSize w url).2
    = Ok (0, Some ("Error: Failed to determine download size. " +:+ strconv.Error e)).
Proof.
  unfold GetFileSize. cbn. intros -> -> Hno.
  destruct (strconv.ParseInt v) as [e|n] eqn:Hp; [by exists e|].
  apply ParseInt_spec in Hp. by destruct (Hno n).
Qed.

Lemma GetFileSize_parsed resp v rest n :
  http_head w url = inr resp ->
  Header resp !! "Content-Length" = Some (v :: rest) ->
  int64_decimal v n ->
  (GetFileSize w url).2 = Ok (U64.wrap n, None).
Proof.
  unfold GetFileSize. cbn. intros -> -> Hp%ParseInt_spec. by rewrite Hp.
Qed.

End SizeResolver.

(** The three messages of the size resolver differ from one another. *)
Lemma GetFileSize_errors_distinct url err e :
  errTransport url err <> "Error: Failed to determine download size."
  /\ errTransport url err
     <> "Error: Failed to determine download size. " +:+ strconv.Error e
  /\ "Error: Failed to determine download size."
     <> "Error: Failed to determine download size. " +:+ strconv.Error e.
Proof. repeat split; cbn; discriminate. Qed.

(** C8, as the code has it: [GetFileSize] issues exactly one [HEAD]
    request and never a second one.  It returns size 0 and an error when
    the request fails, when the response has no [Content-Length] header,
    and when the first value of that header is not a decimal integer of the
    [int64] range (not a number, or a number that does not fit); the three
    messages are distinct.  When the first value is such an integer it
    returns that value, converted to [uint64], and no error. *)
Theorem GetFileSize_cases (w : World) (url : string) :
  (GetFileSize w url).1 = [EvHead url] /\
  (forall err, http_head w url = inl err ->
     (GetFileSize w url).2 = Ok (0, Some (errTransport url err))) /\
  (forall resp, http_head w url = inr resp ->
     Header resp !! "Content-Length" = None ->
     (GetFileSize w url).2 = Ok (0, Some "Error: Failed to determine download size.")) /\
  (forall resp v rest, http_head w url = inr resp ->
     Header resp !! "Content-Length" = Some (v :: rest) ->
     (forall n, ~ int64_decimal v n) ->
     exists e,
       strconv.ParseInt v = inl e /\
       (GetFileSize w url).2
       = Ok (0, Some ("Error: Failed to determine download size. " +:+ strconv.Error e))) /\
  (forall resp v rest n, http_head w url = inr resp ->
     Header resp !! "Content-Length" = Some (v :: rest) ->
     int64_decimal v n ->
     (GetFileSize w url).2 = Ok (U64.wrap n, None)) /\
  (forall err e,
     errTransport url err <> "Error: Failed to determine download size."
     /\ errTransport url err
        <> "Error: Failed to determine download size. " +:+ strconv.Error e
     /\ "Error: Failed to determine download size."
        <> "Error: Failed to determine download size. " +:+ strconv.Error e).
Proof.
  split; [reflexivity|].
  split; [apply GetFileSize_transport|].
  split; [apply GetFileSize_missing|].
  split; [apply GetFileSize_unparsed|].
  split; [apply GetFileSize_parsed|].
  intros. apply GetFileSize_errors_distinct.
Qed.

Lemma GetFileSize_cases_witness :
  (GetFileSize (example_world (Some ["1000"]) (fun _ => 206) (fun _ => EmptyString) (fun _ => None))
               "http://h/f").2
  = Ok (1000, None).
Proof.
  pose (w := example_world (Some ["1000"]) (fun _ => 206) (fun _ => EmptyString) (fun _ => None)).
  destruct (GetFileSize_cases w "http://h/f") as (_ & _ & _ & _ & H & _).
  apply (H (mkResponse 200 {["Content-Length" := ["1000"]]} []) "1000" [] 1000).
  - reflexivity.
  - reflexivity.
  - split; [reflexivity | lia].
Defined.

(** C8 as stated fails: a header value made of digits only, hence numeric,
    that does not fit an [int64] makes [GetFileSize] return an error. *)
Lemma GetFileSize_numeric_out_of_range :
  let v := "9223372036854775808" in
  let w := example_world (Some [v]) (fun _ => 206) (fun _ => EmptyString) (fun _ => None) in
  decimal_int v = Some (2 ^ 63)
  /\ (GetFileSize w "http://h/f").2
     = Ok (0, Some ("Error: Failed to determine download size. "
                      +:+ strconv.Error (strconv.mkNumError "ParseInt" v strconv.ErrRange))).
Proof. split; reflexivity. Qed.

(** C10: when the first [Content-Length] value parses as a negative
    [int64] the resolver reports success, and the size is that value plus
    [2^64]; for the text [-1] the size is [2^64 - 1]. *)
Theorem GetFileSize_negative_length (w : World) (url : string) (resp : Response)
    (v : string) (rest : list string) (n : Z) :
  http_head w url = inr resp ->
  Header resp !! "Content-Length" = Some (v :: rest) ->
  strconv.ParseInt v = inr n ->
  n < 0 ->
  (GetFileSize w url).2 = Ok (n + 2 ^ 64, None)
  /\ (v = "-1" -> (GetFileSize w url).2 = Ok (18446744073709551615, None)).
Proof.
  intros Hh Hl Hp Hn.
  assert (Hr := ParseInt_range _ _ Hp).
  assert (Hw : U64.wrap n = n + 2 ^ 64).
  { unfold U64.wrap. rewrite modulus_value in *.
    symmetry. apply Z.mod_unique with (-1); lia. }
  assert (Hg : (GetFileSize w url).2 = Ok (n + 2 ^ 64, None)).
  { rewrite <- Hw. eapply GetFileSize_parsed; [done..|]. by apply ParseInt_spec. }
  split; [done|].
  intros ->. rewrite Hg. cbv in Hp. by injection Hp as <-.
Qed.

Lemma GetFileSize_negative_length_witness :
  (GetFileSize (example_world (Some ["-1"]) (fun _ => 206) (fun _ => EmptyString) (fun _ => None))
               "http://h/f").2
  = Ok (18446744073709551615, None).
Proof.
  pose (w := example_world (Some ["-1"]) (fun _ => 206) (fun _ => EmptyString) (fun _ => None)).
  refine (proj2 (GetFileSize_negative_length w "http://h/f"
                   (mkResponse 200 {["Content-Length" := ["-1"]]} []) "-1" [] (-1)
                   _ _ _ _) _); try reflexivity.
Defined.

(** ** The command line guards the planner *)

Lemma main_threads_positive arg threads :
  main_threads arg = inr threads -> 1 <= threads < 2 ^ 63.
Proof.
  unfold main_threads.
  destruct (strconv.ParseInt arg) as [e|t] eqn:Hp; [done|].
  apply ParseInt_range in Hp.
  destruct (Z.leb_spec t 0); [done|]. intros [= <-].
  unfold U64.of_int64. rewrite wrap_small; [lia|].
  unfold U64.in_range. rewrite modulus_value. lia.
Qed.

(** C2, as the code has it: the planner returns a plan for every size and
    every worker count from 1 up to what the allocator takes; with a worker
    count of 0 it panics on the division, and with more workers than the
    allocator takes it panics in [make].  [main] only ever passes it a count
    of at least 1, so from [main] the division never panics, but [make]
    may. *)
Theorem GetDownloadChunks_total_from_one (size threads : Z) :
  U64.in_range size -> 0 <= threads < U64.modulus ->
  (1 <= threads -> chunk_bytes * threads <= maxAlloc ->
     exists plan, GetDownloadChunks size threads = Ok plan)
  /\ (threads = 0 -> GetDownloadChunks size threads = Panic "integer divide by zero")
  /\ (maxAlloc < chunk_bytes * threads ->
      GetDownloadChunks size threads = Panic "makeslice: len out of range")
  /\ (forall arg t, main_threads arg = inr t ->
        1 <= t
        /\ ((chunk_bytes * t <= maxAlloc
             /\ exists plan, GetDownloadChunks size t = Ok plan)
            \/ (maxAlloc < chunk_bytes * t
                /\ GetDownloadChunks size t = Panic "makeslice: len out of range"))).
Proof.
  intros Hs Ht. split; [|split; [|split]].
  - intros H1 Ha. eexists. apply GetDownloadChunks_closed_form; [done|lia|done].
  - by intros ->.
  - intros Ha. apply GetDownloadChunks_too_many; [|done].
    unfold chunk_bytes, maxAlloc in Ha. lia.
  - intros arg t Hm%main_threads_positive. split; [lia|].
    assert (Hr : 1 <= t < U64.modulus) by (rewrite modulus_value; lia).
    destruct (Z.le_gt_cases (chunk_bytes * t) maxAlloc) as [Ha|Ha].
    + left. split; [done|]. eexists. by apply GetDownloadChunks_closed_form.
    + right. split; [lia|]. apply GetDownloadChunks_too_many; [done|lia].
Qed.

Lemma GetDownloadChunks_total_from_one_witness :
  (exists plan, GetDownloadChunks 10 2 = Ok plan)
  /\ main_threads "2" = inr 2.
Proof.
  assert (H1 : U64.in_range 10) by (unfold U64.in_range, U64.modulus; lia).
  assert (H2 : 0 <= 2 < U64.modulus) by (unfold U64.modulus; lia).
  split; [|reflexivity].
  apply (proj1 (GetDownloadChunks_total_from_one 10 2 H1 H2)); [lia|].
  unfold chunk_bytes, maxAlloc. lia.
Defined.

(** The size that the resolver returns is a [uint64]. *)
Lemma GetFileSize_size_range (w : World) (url : string) (size : Z)
    (err : option error) :
  (GetFileSize w url).2 = Ok (size, err) -> U64.in_range size.
Proof.
  unfold GetFileSize. cbn. intros H.
  repeat case_match; simplify_eq; try apply wrap_range;
    unfold U64.in_range; rewrite modulus_value; lia.
Qed.

(** From [main], the planner is reached only with a size and a thread
    count for which it returns, when the allocator takes the slice, a
    partition of the download. *)
Lemma main_plan_partitions (w : World) (url arg : string) (size threads : Z) :
  (GetFileSize w url).2 = Ok (size, None) ->
  main_threads arg = inr threads ->
  chunk_bytes * threads <= maxAlloc ->
  exists plan, main_plan w url arg = Ok (inr plan) /\ partitions size plan.
Proof.
  intros Hs Ht Ha. pose proof (GetFileSize_size_range _ _ _ _ Hs) as Hr.
  pose proof (main_threads_positive _ _ Ht) as Hp.
  assert (Hp' : 1 <= threads < U64.modulus) by (rewrite modulus_value; lia).
  unfold main_plan. rewrite Hs. cbn. rewrite Ht.
  rewrite GetDownloadChunks_closed_form by done. cbn.
  eexists. split; [done|]. by apply plan_partitions.
Qed.

(** ** The fetch coordinator: an invariant of every run *)

Lemma fmap_chunk_alter (k : nat) (p : TaskPc) (l : list Task) :
  chunk <$> alter (fun t => mkTask (chunk t) p) k l = chunk <$> l.
Proof.
  apply list_eq. intros j. rewrite !list_lookup_fmap.
  destruct (decide (k = j)) as [->|].
  - rewrite list_lookup_alter_eq. by destruct (l !! j).
  - by rewrite list_lookup_alter_ne.
Qed.

Lemma received_snoc (tr : list Event) (e : Event) :
  received (tr ++ [e])
  = received tr ++ match e with EvRecv k err => [(k, err)] | _ => [] end.
Proof. unfold received. rewrite omap_app. by destruct e. Qed.

Lemma received_silent (evs : list Event) :
  (forall e, e ∈ evs -> match e with EvRecv _ _ => False | _ => True end) ->
  received evs = [].
Proof.
  induction evs as [|e evs IH]; [done|]. intros H.
  unfold received in *. cbn.
  pose proof (H e ltac:(left)) as He.
  rewrite IH by (intros e' ?; apply H; by right). by destruct e.
Qed.

Lemma replay_snoc (tr : list Event) (e : Event) :
  replay (tr ++ [e])
  = match e with EvWrite _ off data => write_at off data (replay tr) | _ => replay tr end.
Proof. unfold replay. by rewrite foldl_snoc. Qed.


(** The routine premises of [invariant_local]. *)
Ltac side_conditions Hpc :=
  first
    [ done
    | by (cbn; rewrite ?app_nil_r)
    | by (cbn; rewrite ?app_nil_r, ?replay_snoc)
    | by (rewrite Hpc; intros [|])
    | by (intros ? ?%elem_of_nil)
    | by (intros ? ->%list_elem_of_singleton)
    | idtac ].

Section Invariant.

Context (w : World) (url output : string) (chunks : list DownloadChunk).

Lemma invariant_start :
  create_err w output = None ->
  invariant w url output chunks (DownloadChunks_start w output chunks).
Proof.
  intros Hc. unfold DownloadChunks_start. rewrite Hc. split; cbn.
  - rewrite <- list_fmap_compose. by rewrite list_fmap_id.
  - intros k t [c [-> _]]%list_lookup_fmap_Some. exact I.
  - by intros k req ?%elem_of_nil.
  - by intros k off data ?%elem_of_nil.
  - by intros k err ?%elem_of_nil.
  - constructor.
  - repeat split; [lia | constructor].
  - done.
Qed.

(** A local step of task [k]: its counter moves, it may log what it
    did, and the caller is not involved. *)
Lemma invariant_local (s s' : State) (k : nat) (t : Task) (p' : TaskPc)
    (evs : list Event) :
  invariant w url output chunks s ->
  tasks s !! k = Some t ->
  tasks s' = alter (fun t => mkTask (chunk t) p') k (tasks s) ->
  coord s' = coord s ->
  trace s' = trace s ++ evs ->
  contents (file s') = replay (trace s') ->
  pc_ok w url output k (mkTask (chunk t) p') ->
  (pc t = TUnlocking \/ pc t = TExited -> p' = TExited) ->
  (forall e, e ∈ evs ->
     match e with
     | EvRequest j req => j = k /\ req = chunkRequest url (Start (chunk t)) (End (chunk t))
     | EvWrite j _ _ => j = k /\ exists resp, got206 w url k (chunk t) resp
     | EvRecv _ _ => False
     | EvHead _ => True
     end) ->
  invariant w url output chunks s'.
Proof.
  intros [Hch Hpc Hrq Hwr Hrc Hnd Hco Hfi] Ht Htasks Hcoord Htrace Hfile Hok Hdone Hevs.
  assert (Hc : chunks !! k = Some (chunk t)).
  { rewrite <- Hch, list_lookup_fmap, Ht. done. }
  assert (Hrecv : received (trace s') = received (trace s)).
  { assert (Hevs' : received evs = []).
    { apply received_silent. intros e He%Hevs. by destruct e. }
    rewrite Htrace. unfold received in *. by rewrite omap_app, Hevs', app_nil_r. }
  assert (Hlk : forall j t', tasks s' !! j = Some t' <->
    (j = k /\ t' = mkTask (chunk t) p') \/ (j <> k /\ tasks s !! j = Some t')).
  { intros j t'. rewrite Htasks.
    destruct (decide (k = j)) as [->|].
    - rewrite list_lookup_alter_eq, Ht. cbn. split.
      + intros [= <-]. by left.
      + intros [[_ ->]|[? _]]; done.
    - rewrite list_lookup_alter_ne by done. split; [by right|].
      intros [[-> _]|[_ ?]]; done. }
  split.
  - by rewrite Htasks, fmap_chunk_alter.
  - intros j t' [[-> ->]|[_ Hj]]%Hlk; [done|by apply Hpc].
  - intros j req. rewrite Htrace. intros [?|He]%elem_of_app; [by apply Hrq|].
    apply Hevs in He as [-> ->]. eauto.
  - intros j off data. rewrite Htrace.
    intros [?|He]%elem_of_app; [by eapply Hwr|].
    apply Hevs in He as [-> [resp ?]]. eauto.
  - intros j err. rewrite Hrecv. intros (t' & Hj & Hp & Ho)%Hrc.
    destruct (decide (j = k)) as [->|].
    + assert (t' = t) as -> by congruence.
      exists (mkTask (chunk t) p'). split; [apply Hlk; by left|].
      split; [right; by apply Hdone|done].
    + exists t'. split; [apply Hlk; by right|done].
  - by rewrite Hrecv.
  - by rewrite Hcoord, Hrecv.
  - done.
Qed.

Lemma invariant_run_task (k : nat) (s s' : State) :
  invariant w url output chunks s ->
  run_task w url output k s = Some s' ->
  invariant w url output chunks s'.
Proof.
  intros Hinv. unfold run_task.
  destruct (tasks s !! k) as [t|] eqn:Ht; [cbn|done].
  pose proof (inv_pc _ _ _ _ _ Hinv k t Ht) as Hok. unfold pc_ok in Hok.
  pose proof (inv_file _ _ _ _ _ Hinv) as Hfi.
  destruct (pc t) as [|resp|resp|resp|err locked| |] eqn:Hpc; try done.
  - (* spawned: request, answer, status *)
    destruct (new_request_err w url) as [x|] eqn:Hnr.
    { intros [= <-]. eapply (invariant_local s _ k t _ []); side_conditions Hpc.
      cbn. unfold outcome. by rewrite Hnr. }
    destruct (http_do w k _) as [x|resp] eqn:Hdo;
      [|destruct (StatusCode resp =? StatusPartialContent) eqn:Hst];
      intros [= <-];
      eapply (invariant_local s _ k t _ [EvRequest k _]); side_conditions Hpc.
    + cbn. unfold outcome. by rewrite Hnr, Hdo.
    + cbn. unfold got206. by apply Z.eqb_eq in Hst.
    + cbn. unfold outcome. by rewrite Hnr, Hdo, Hst.
  - (* locking *)
    destruct (mutex s); [done|]. intros [= <-].
    eapply (invariant_local s _ k t _ []); side_conditions Hpc.
  - (* seeking *)
    destruct (Seek w k _ (file s)) as [x|f] eqn:Hseek; intros [= <-];
      eapply (invariant_local s _ k t _ []); side_conditions Hpc.
    + cbn. unfold outcome. destruct Hok as (-> & -> & ->). cbn. eauto.
    + unfold Seek in Hseek. repeat case_match; simplify_eq. exact Hfi.
  - (* copying *)
    unfold Copy. destruct (closed (file s)) eqn:Hcl.
    { intros [= <-]. eapply (invariant_local s _ k t _ []); side_conditions Hpc.
      cbn. unfold outcome. destruct Hok as (-> & -> & ->). cbn. eauto. }
    destruct (copy_fault w k) as [[n x]|]; intros [= <-];
      eapply (invariant_local s _ k t _ [EvWrite k _ _]); side_conditions Hpc.
    all: try (intros e ->%list_elem_of_singleton; split; [done|by exists resp]).
    all: try (cbn; by rewrite replay_snoc, Hfi).
    all: cbn; unfold outcome; destruct Hok as (-> & -> & ->); cbn; eauto.
  - (* unlocking *)
    intros [= <-]. eapply (invariant_local s _ k t _ []); side_conditions Hpc.
Qed.

Lemma invariant_recv_from (k : nat) (s s' : State) :
  invariant w url output chunks s ->
  recv_from k s = Some s' ->
  invariant w url output chunks s'.
Proof.
  intros [Hch Hpc Hrq Hwr Hrc Hnd Hco Hfi]. unfold recv_from.
  destruct (coord s) as [i| |] eqn:Hcs; try done.
  destruct (decide (i < length (tasks s))%nat) as [Hi|]; [|done].
  destruct (tasks s !! k) as [t|] eqn:Ht; [cbn|done].
  specialize (Hpc k t Ht) as Hok. unfold pc_ok in Hok.
  destruct (pc t) as [| | | |err locked| |] eqn:Hp; try done.
  intros [= <-].
  assert (Hfresh : forall e, (k, e) ∉ received (trace s)).
  { intros e (t' & Ht' & [?|?] & _)%Hrc; congruence. }
  assert (Hlen : length (tasks s) = length chunks).
  { by rewrite <- Hch, length_fmap. }
  cbn in Hco. destruct Hco as (-> & Hle & Hnil).
  split; cbn.
  - by rewrite fmap_chunk_alter.
  - intros j t'. destruct (decide (k = j)) as [->|].
    + rewrite list_lookup_alter_eq, Ht. intros [= <-].
      unfold pc_ok. cbn. by destruct locked.
    + rewrite list_lookup_alter_ne by done. apply Hpc.
  - intros j req [?|[=]%list_elem_of_singleton]%elem_of_app. by apply Hrq.
  - intros j off data [?|[=]%list_elem_of_singleton]%elem_of_app. by eapply Hwr.
  - intros j e. rewrite received_snoc.
    intros [Hj|[= -> ->]%list_elem_of_singleton]%elem_of_app.
    + assert (j <> k) by (intros ->; by eapply Hfresh).
      rewrite list_lookup_alter_ne by done. by apply Hrc.
    + rewrite list_lookup_alter_eq, Ht. cbn. eexists. split; [done|].
      split; [destruct locked; [by left|by right]|done].
  - rewrite received_snoc, fmap_app. apply NoDup_app. split; [done|].
    split; [|apply NoDup_singleton].
    intros j [[j' e] [Hjj Hj]]%list_elem_of_fmap Hjk%list_elem_of_singleton.
    cbn in *. subst. by eapply Hfresh.
  - rewrite received_snoc. destruct err as [e|]; cbn.
    + by exists (received (trace s)), k.
    + rewrite length_app. cbn. split; [lia|]. split; [lia|].
      apply Forall_app. split; [done|]. by constructor.
  - by rewrite replay_snoc.
Qed.

Lemma invariant_run_coord (s s' : State) :
  invariant w url output chunks s ->
  run_coord s = Some s' ->
  invariant w url output chunks s'.
Proof.
  intros [Hch Hpc Hrq Hwr Hrc Hnd Hco Hfi]. unfold run_coord.
  assert (Hlen : length (tasks s) = length chunks).
  { by rewrite <- Hch, length_fmap. }
  destruct (coord s) as [i|r|r] eqn:Hcs; try done.
  - destruct (decide (i < length (tasks s))%nat); [done|].
    intros [= <-]. split; try done. cbn.
    destruct Hco as (-> & ? & ?). split; [lia|done].
  - intros [= <-]. split; try done.
Qed.

Lemma invariant_step (p : Pick) (s s' : State) :
  invariant w url output chunks s ->
  step w url output p s = Some s' ->
  invariant w url output chunks s'.
Proof.
  destruct p; cbn;
    eauto using invariant_run_task, invariant_recv_from, invariant_run_coord.
Qed.

Lemma invariant_exec (p : Pick) (s : State) :
  invariant w url output chunks s ->
  invariant w url output chunks (exec w url output s p).
Proof.
  intros Hinv. unfold exec.
  destruct (step w url output p s) eqn:Hs; cbn; eauto using invariant_step.
Qed.

Lemma invariant_run (sched : list Pick) (s : State) :
  invariant w url output chunks s ->
  invariant w url output chunks (run w url output sched s).
Proof.
  revert s. induction sched as [|p sched IH]; intros s Hinv; [done|].
  cbn. apply IH. by apply invariant_exec.
Qed.

(** Every state that [DownloadChunks] reaches after creating its file
    satisfies the invariant. *)
Lemma invariant_DownloadChunks (sched : list Pick) :
  create_err w output = None ->
  invariant w url output chunks (DownloadChunks w url output chunks sched).
Proof. intros Hc. by apply invariant_run, invariant_start. Qed.

End Invariant.

(** ** The fetch coordinator: what a run can and cannot do *)

Lemma elem_of_received (tr : list Event) (k : nat) (err : option error) :
  (k, err) ∈ received tr <-> EvRecv k err ∈ tr.
Proof.
  unfold received. rewrite list_elem_of_omap. split.
  - intros (e & He & Hk). destruct e; by simplify_eq.
  - intros He. by exists (EvRecv k err).
Qed.

Section Runs.

Context (w : World) (url output : string).

(** A local step of task [j] leaves the caller and the other tasks
    alone. *)
Lemma run_task_frame (j : nat) (s s' : State) :
  run_task w url output j s = Some s' ->
  coord s' = coord s /\ forall k, k <> j -> tasks s' !! k = tasks s !! k.
Proof.
  unfold run_task. intros H.
  destruct (tasks s !! j) as [t|]; [cbn in H|done].
  repeat case_match; simplify_eq; cbn;
    (split; [done|intros k ?; by rewrite list_lookup_alter_ne]).
Qed.

(** Once [DownloadChunks] has returned nobody receives any more: a task
    that is blocked in its send stays there in every continuation. *)
Lemma abandoned_forever (sched : list Pick) : forall (s : State) k t r,
  coord s = CReturned r ->
  tasks s !! k = Some t ->
  (exists err locked, pc t = TSending err locked) ->
  coord (run w url output sched s) = CReturned r
  /\ tasks (run w url output sched s) !! k = Some t.
Proof.
  induction sched as [|p sched IH]; intros s k t r Hc Ht Hp; [done|].
  cbn. apply IH; try done; unfold exec; destruct p as [j|j|]; cbn.
  - destruct (run_task w url output j s) as [s'|] eqn:Hs; [cbn|done].
    apply run_task_frame in Hs as [-> _]. done.
  - unfold recv_from. by rewrite Hc.
  - unfold run_coord. by rewrite Hc.
  - destruct (run_task w url output j s) as [s'|] eqn:Hs; [cbn|done].
    destruct (decide (k = j)) as [->|Hne].
    + unfold run_task in Hs. rewrite Ht in Hs. cbn in Hs.
      destruct Hp as (err & locked & Hp). by rewrite Hp in Hs.
    + apply run_task_frame in Hs as [_ Hs]. by rewrite Hs.
  - unfold recv_from. by rewrite Hc.
  - unfold run_coord. by rewrite Hc.
Qed.

(** When the output file cannot be created no task is launched and the
    call returns that failure. *)
Lemma DownloadChunks_create_failure (chunks : list DownloadChunk)
    (sched : list Pick) (x : error) :
  create_err w output = Some x ->
  DownloadChunks w url output chunks sched
  = mkState [] false (mkFile true 0 []) (CReturned (Some (errCreate output x))) [].
Proof.
  intros Hc. unfold DownloadChunks, DownloadChunks_start. rewrite Hc.
  induction sched as [|p sched IH]; [done|].
  cbn. by destruct p.
Qed.

End Runs.

(** [%d] prints a number that is not negative as decimal digits that read
    back as that number. *)
Lemma digits_of_uint_acc (d : Decimal.uint) : forall acc : positive,
  digits_value (NilEmpty.string_of_uint d) (Z.pos acc)
  = Some (Z.pos (Pos.of_uint_acc d acc)).
Proof.
  induction d; intros acc;
    cbn [NilEmpty.string_of_uint Pos.of_uint_acc]; [done|..];
    rewrite <- IHd; cbn [digits_value];
    match goal with
    | |- context [strconv.digit ?c] =>
        let v := eval vm_compute in (strconv.digit c) in
        change (strconv.digit c) with v
    end;
    cbv beta iota; f_equal; lia.
Qed.

Lemma digits_of_uint (d : Decimal.uint) :
  digits_value (NilEmpty.string_of_uint d) 0 = Some (Z.of_N (Pos.of_uint d)).
Proof.
  induction d; cbn [NilEmpty.string_of_uint Pos.of_uint]; [done|..];
    cbn [digits_value];
    match goal with
    | |- context [strconv.digit ?c] =>
        let v := eval vm_compute in (strconv.digit c) in
        change (strconv.digit c) with v
    end;
    cbv beta iota; [exact IHd|..];
    match goal with
    | |- digits_value _ ?n = _ =>
        let v := eval vm_compute in n in change n with v
    end;
    by rewrite digits_of_uint_acc.
Qed.

Lemma fmt_d_decimal (n : Z) : 0 <= n -> decimal_nat (fmt_d n) = Some n.
Proof.
  intros Hn. destruct n as [|p|p]; [done| |lia].
  pose proof (digits_of_uint (Pos.to_uint p)) as Hd.
  rewrite DecimalPos.Unsigned.of_to in Hd. cbn [Z.of_N] in Hd.
  unfold fmt_d. cbn [Z.to_int NilZero.string_of_int].
  destruct (Pos.to_uint p) as [|u|u|u|u|u|u|u|u|u|u] eqn:Hu;
    [discriminate Hd|..]; exact Hd.
Qed.

Lemma fmt_d_no_leading_zero (n : Z) : 0 <= n -> leading_zero (fmt_d n) = false.
Proof.
  intros Hn. destruct n as [|p|p]; [done| |lia].
  unfold fmt_d. cbn [Z.to_int NilZero.string_of_int].
  pose proof (DecimalPos.Unsigned.to_of (Pos.to_uint p)) as Hn'.
  rewrite DecimalPos.Unsigned.of_to in Hn'. cbn [N.to_uint] in Hn'.
  pose proof (DecimalPos.Unsigned.to_uint_nonzero p) as Hz.
  pose proof (DecimalFacts.nzhead_nonzero (Pos.to_uint p)) as Hh.
  unfold Decimal.unorm in Hn'.
  destruct (Pos.to_uint p) as [|u|u|u|u|u|u|u|u|u|u] eqn:Hu;
    try (cbn; by destruct (NilEmpty.string_of_uint u)).
  - reflexivity.
  - destruct (Decimal.nzhead (Decimal.D0 u)) eqn:He; congruence.
Qed.

(** A worker count that [main] accepts and [make] refuses. *)
Example GetDownloadChunks_makeslice_panic :
  main_threads "1125899906842624" = inr (2 ^ 50)
  /\ GetDownloadChunks 5 (2 ^ 50) = Panic "makeslice: len out of range".
Proof. split; reflexivity. Qed.

(** The header of the second chunk of the plan for 1000 bytes and three
    workers. *)
Example chunkHeader_333_666 : chunkHeader 333 666 = "bytes=333-666".
Proof. reflexivity. Qed.

(** C4: in every run of a download whose file was created, a write to the
    file comes only from a task that was answered 206, and the file holds
    exactly what those writes put there.  A task answered with any other
    status, 200 included, never reaches the lock, the seek or the copy,
    writes nothing, and the one outcome it hands over is the status error;
    its first step already is that report, with the file untouched. *)
Theorem DownloadChunks_rejects_non_206 (w : World) (url output : string)
    (chunks : list DownloadChunk) (sched : list Pick) :
  create_err w output = None ->
  let s := DownloadChunks w url output chunks sched in
  (forall k off data, EvWrite k off data ∈ trace s ->
     exists c resp, chunks !! k = Some c /\ got206 w url k c resp)
  /\ contents (file s) = replay (trace s)
  /\ (forall k c resp,
        chunks !! k = Some c ->
        new_request_err w url = None ->
        http_do w k (chunkRequest url (Start c) (End c)) = inr resp ->
        StatusCode resp <> StatusPartialContent ->
        let report := Some (errStatus url (StatusCode resp)) in
        (forall off data, EvWrite k off data ∉ trace s)
        /\ (forall err, EvRecv k err ∈ trace s -> err = report)
        /\ (forall t, tasks s !! k = Some t ->
              match pc t with
              | TLocking _ | TSeeking _ | TCopying _ => False
              | TSending err _ => err = report
              | TSpawned | TUnlocking | TExited => True
              end)
        /\ (forall s0, tasks s0 !! k = Some (mkTask c TSpawned) ->
              exists s1,
                run_task w url output k s0 = Some s1
                /\ tasks s1 !! k = Some (mkTask c (TSending report false))
                /\ file s1 = file s0)).
Proof.
  intros Hc s.
  pose proof (invariant_DownloadChunks w url output chunks sched Hc) as Hinv.
  fold s in Hinv. destruct Hinv as [Hch Hpc Hrq Hwr Hrc Hnd Hco Hfi].
  split; [done|]. split; [done|].
  intros k c resp Hk Hnr Hdo Hst report.
  assert (Hneq : (StatusCode resp =? StatusPartialContent) = false)
    by by apply Z.eqb_neq.
  assert (Hout : forall err, outcome w url output k c err -> err = report).
  { intros err. unfold outcome. by rewrite Hnr, Hdo, Hneq. }
  assert (Hno : forall r, ~ got206 w url k c r).
  { intros r (_ & Hr & Hs). congruence. }
  assert (Hchunk : forall t, tasks s !! k = Some t -> chunk t = c).
  { intros t Ht. rewrite <- Hch, list_lookup_fmap, Ht in Hk. by injection Hk. }
  split; [|split; [|split]].
  - intros off data (c' & r & Hk' & H206)%Hwr.
    assert (c' = c) as -> by congruence. by eapply Hno.
  - intros err (t & Ht & _ & Ho)%elem_of_received%Hrc.
    apply Hout. by rewrite <- (Hchunk t Ht).
  - intros t Ht. specialize (Hpc k t Ht). unfold pc_ok in Hpc.
    rewrite (Hchunk t Ht) in Hpc.
    destruct (pc t); try done; try (by eapply Hno). by apply Hout.
  - intros s0 Ht. unfold run_task. rewrite Ht. cbn. rewrite Hnr, Hdo, Hneq.
    eexists. split; [done|]. split; [|done].
    cbn. by rewrite list_lookup_alter_eq, Ht.
Qed.

Lemma DownloadChunks_rejects_non_206_witness :
  let w := example_world None (fun k => if decide (k = 1)%nat then 200 else 206)
             (fun _ => "abcd") (fun _ => None) in
  let chunks := [mkChunk 0 4; mkChunk 4 8] in
  let s := DownloadChunks w "http://h/f" "out.bin" chunks
             [Run 0; Run 1; Run 0; Run 0; Run 0; Recv 0; Recv 1; Coord]%nat in
  returned s = Some (Some (errStatus "http://h/f" 200))
  /\ contents (file s) = list_byte_of_string "abcd"
  /\ (forall off data, EvWrite 1 off data ∉ trace s).
Proof.
  intros w chunks s. split; [reflexivity|]. split; [reflexivity|].
  assert (Hc : create_err w "out.bin" = None) by reflexivity.
  destruct (DownloadChunks_rejects_non_206 w "http://h/f" "out.bin" chunks
              [Run 0; Run 1; Run 0; Run 0; Run 0; Recv 0; Recv 1; Coord]%nat Hc)
    as (_ & _ & H).
  refine (proj1 (H 1%nat (mkChunk 4 8)
                   (mkResponse 200 ∅ (list_byte_of_string "abcd")) _ _ _ _));
    [reflexivity | reflexivity | reflexivity | discriminate].
Defined.




(** C6 fails on the code: with two tasks that both fail, the caller
    returns at the first failure it receives; the other task is still
    blocked in its send, and in every continuation it stays blocked, is
    never received from and never exits. *)
Theorem DownloadChunks_abandons_pending_task :
  let w := example_world None (fun _ => 200) (fun _ => "abcd") (fun _ => None) in
  let chunks := [mkChunk 0 4; mkChunk 4 8] in
  let report := Some (errStatus "http://h/f" 200) in
  let s := DownloadChunks w "http://h/f" "out.bin" chunks
             [Run 0; Run 1; Recv 0; Coord]%nat in
  returned s = Some report
  /\ forall sched,
       let s' := run w "http://h/f" "out.bin" sched s in
       returned s' = Some report
       /\ tasks s' !! 1%nat = Some (mkTask (mkChunk 4 8) (TSending report false))
       /\ forall err, EvRecv 1 err ∉ trace s'.
Proof.
  intros w chunks report s. split; [reflexivity|].
  intros sched s'.
  destruct (abandoned_forever w "http://h/f" "out.bin" sched s 1
              (mkTask (mkChunk 4 8) (TSending report false)) report)
    as [Hco Ht]; [reflexivity | reflexivity | by eexists _, _ |].
  fold s' in Hco, Ht. split; [|split; [done|]].
  - unfold returned. by rewrite Hco.
  - intros err Hin%elem_of_received.
    assert (Hinv : invariant w "http://h/f" "out.bin" chunks s').
    { apply invariant_run. by apply invariant_DownloadChunks. }
    apply (inv_recv _ _ _ _ _ Hinv) in Hin as (t & Ht' & [Hp|Hp] & _);
      rewrite Ht in Ht'; injection Ht' as <-; discriminate Hp.
Qed.

(** ** The call returns *)

Section Returns.

Context (w : World) (url output : string).

Local Notation "s ▷ p" := (exec w url output s p) (at level 50, left associativity).

Lemma run_app (l1 l2 : list Pick) (s : State) :
  run w url output (l1 ++ l2) s = run w url output l2 (run w url output l1 s).
Proof. apply foldl_app. Qed.

Lemma same_others_refl k s : same_others k s s.
Proof. by split. Qed.

Lemma same_others_trans k s1 s2 s3 :
  same_others k s1 s2 -> same_others k s2 s3 -> same_others k s1 s3.
Proof.
  intros [H1 H1'] [H2 H2']. split; [congruence|].
  intros j Hj. by rewrite H2', H1'.
Qed.

Lemma exec_Run_frame k s :
  coord (s ▷ Run k) = coord s /\ same_others k s (s ▷ Run k).
Proof.
  unfold exec. cbn.
  destruct (run_task w url output k s) as [s'|] eqn:Hs; cbn;
    [|split; [done|apply same_others_refl]].
  pose proof (run_task_frame _ _ _ _ _ _ Hs) as [Hc Ho].
  split; [done|]. split; [|done].
  unfold run_task in Hs. destruct (tasks s !! k) as [t|]; [cbn in Hs|done].
  repeat case_match; simplify_eq; cbn; by rewrite length_alter.
Qed.

Lemma exec_Recv_frame k s : same_others k s (s ▷ Recv k).
Proof.
  unfold exec. cbn [step]. unfold recv_from.
  destruct (coord s) as [i| |]; try apply same_others_refl.
  destruct (decide _); [|apply same_others_refl].
  destruct (tasks s !! k) as [t|]; [cbn|apply same_others_refl].
  destruct (pc t); try apply same_others_refl.
  split; cbn; [by rewrite length_alter|].
  intros j ?. by rewrite list_lookup_alter_ne.
Qed.

Lemma exec_blocked k c err locked m s :
  serving k c (TSending err locked) m s -> s ▷ Run k = s.
Proof.
  intros (Ht & _). unfold exec. cbn. unfold run_task. by rewrite Ht.
Qed.

Lemma exec_exited k c s :
  tasks s !! k = Some (mkTask c TExited) -> s ▷ Run k = s.
Proof.
  intros Ht. unfold exec. cbn. unfold run_task. by rewrite Ht.
Qed.

Ltac fire Ht :=
  unfold exec; cbn [step]; unfold run_task, recv_from;
  rewrite Ht; cbn [mbind option_bind pc chunk].

Ltac served :=
  unfold serving; cbn;
  rewrite ?list_lookup_alter_eq, ?length_alter;
  repeat match goal with H : _ !! _ = Some _ |- _ => rewrite H end;
  cbn; eauto 10.

Lemma phase_spawn k c m s :
  serving k c TSpawned m s ->
  (exists e, serving k c (TSending (Some e) false) m (s ▷ Run k))
  \/ (exists r, serving k c (TLocking r) m (s ▷ Run k)).
Proof.
  intros (Ht & Hm & Hc & Hk). fire Ht.
  repeat case_match; simplify_eq; cbn [default]; [left|left|right|left];
    eexists; served.
Qed.

Lemma phase_lock k c r s :
  serving k c (TLocking r) false s ->
  serving k c (TSeeking r) true (s ▷ Run k).
Proof. intros (Ht & Hm & Hc & Hk). fire Ht. rewrite Hm. served. Qed.

Lemma phase_seek k c r m s :
  serving k c (TSeeking r) m s ->
  (exists e, serving k c (TSending (Some e) true) m (s ▷ Run k))
  \/ serving k c (TCopying r) m (s ▷ Run k).
Proof.
  intros (Ht & Hm & Hc & Hk). fire Ht.
  destruct (Seek w k _ (file s)); cbn [default]; [left; eexists|right]; served.
Qed.

Lemma phase_copy k c r m s :
  serving k c (TCopying r) m s ->
  (exists e, serving k c (TSending (Some e) true) m (s ▷ Run k))
  \/ serving k c (TSending None false) false (s ▷ Run k).
Proof.
  intros (Ht & Hm & Hc & Hk). fire Ht.
  destruct (Copy w k (Body r) (file s)) as [[[data|] f] [e|]]; cbn [default];
    [left; eexists|right|left; eexists|right]; served.
Qed.

Lemma phase_recv_err k c e locked m s :
  serving k c (TSending (Some e) locked) m s ->
  coord (s ▷ Recv k) = CExit (Some e).
Proof.
  intros (Ht & Hm & Hc & Hk). fire Ht. rewrite Hc.
  by destruct (decide _).
Qed.

Lemma phase_recv_ok k c s :
  serving k c (TSending None false) false s ->
  let s' := s ▷ Recv k in
  tasks s' !! k = Some (mkTask c TExited)
  /\ coord s' = CLoop (S k) /\ mutex s' = false.
Proof.
  intros (Ht & Hm & Hc & Hk). fire Ht. rewrite Hc.
  destruct (decide _); [cbn|done].
  by rewrite list_lookup_alter_eq, Ht.
Qed.

(** One round of the sequential schedule on a task that has not started:
    the caller either has its error, or has moved to the next iteration
    with the mutex free. *)
Lemma round_effect (s : State) (k : nat) (c : DownloadChunk) :
  serving k c TSpawned false s ->
  let s' := run w url output (round k) s in
  same_others k s s'
  /\ ((exists e, coord s' = CExit (Some e))
      \/ (coord s' = CLoop (S k) /\ mutex s' = false)).
Proof.
  intros Hs.
  change (run w url output (round k) s)
    with (s ▷ Run k ▷ Run k ▷ Run k ▷ Run k ▷ Recv k ▷ Run k).
  cbv zeta. split.
  { repeat (eapply same_others_trans;
            [|first [apply (proj2 (exec_Run_frame _ _)) | apply exec_Recv_frame]]).
    apply same_others_refl. }
  rewrite (proj1 (exec_Run_frame k _)).
  destruct (phase_spawn _ _ _ _ Hs) as [[e H1]|[r H1]].
  { rewrite !(exec_blocked _ _ _ _ _ _ H1). left. exists e.
    by eapply phase_recv_err. }
  pose proof (phase_lock _ _ _ _ H1) as H2.
  destruct (phase_seek _ _ _ _ _ H2) as [[e H3]|H3].
  { rewrite (exec_blocked _ _ _ _ _ _ H3). left. exists e.
    by eapply phase_recv_err. }
  destruct (phase_copy _ _ _ _ _ H3) as [[e H4]|H4].
  { left. exists e. by eapply phase_recv_err. }
  right. destruct (phase_recv_ok _ _ _ H4) as (Ht & Hc & Hm).
  by rewrite (exec_exited _ _ _ Ht).
Qed.

(** Once the result is chosen, the rest of the schedule can only close
    the file and return it. *)
Lemma exit_stable (sched : list Pick) : forall s r,
  coord s = CExit r \/ coord s = CReturned r ->
  coord (run w url output sched s) = CExit r
  \/ coord (run w url output sched s) = CReturned r.
Proof.
  induction sched as [|p sched IH]; intros s r Hc; [done|].
  cbn. apply IH. destruct p as [j|j|].
  - by rewrite (proj1 (exec_Run_frame j s)).
  - unfold exec. cbn [step]. unfold recv_from.
    destruct Hc as [Hc|Hc]; rewrite Hc; cbn; rewrite Hc; eauto.
  - unfold exec. cbn [step]. unfold run_coord.
    destruct Hc as [Hc|Hc]; rewrite Hc; cbn; rewrite ?Hc; eauto.
Qed.

Lemma exec_Coord_exit (s : State) (r : option error) :
  coord s = CExit r \/ coord s = CReturned r ->
  coord (s ▷ Coord) = CReturned r.
Proof.
  unfold exec. cbn [step]. unfold run_coord.
  intros [Hc|Hc]; rewrite Hc; cbn; by rewrite ?Hc.
Qed.

Lemma exit_returns (s : State) (r : option error) :
  coord s = CExit r \/ coord s = CReturned r ->
  coord (run w url output [Coord; Coord] s) = CReturned r.
Proof.
  intros Hc. change (run w url output [Coord; Coord] s) with (s ▷ Coord ▷ Coord).
  apply exec_Coord_exit. right. by apply exec_Coord_exit.
Qed.

Lemma rounds_return (m : nat) : forall k s,
  (k + m)%nat = length (tasks s) ->
  mutex s = false ->
  coord s = CLoop k ->
  (forall j, (k <= j < k + m)%nat ->
     exists c, tasks s !! j = Some (mkTask c TSpawned)) ->
  exists r,
    coord (run w url output (flat_map round (seq k m) ++ [Coord; Coord]) s)
    = CReturned r.
Proof.
  induction m as [|m IH]; intros k s Hlen Hm Hc Hsp.
  - exists None. cbn [seq flat_map app].
    change (run w url output [Coord; Coord] s) with (s ▷ Coord ▷ Coord).
    apply exec_Coord_exit. left.
    unfold exec. cbn [step]. unfold run_coord. rewrite Hc.
    destruct (decide _); [lia|done].
  - destruct (Hsp k ltac:(lia)) as [c Hk].
    assert (Hs : serving k c TSpawned false s).
    { repeat split; [done..|lia]. }
    destruct (round_effect s k c Hs) as [[Hl Ho] Hr].
    cbn [seq flat_map]. rewrite <- app_assoc, run_app.
    destruct Hr as [[e He]|[Hc' Hm']].
    + exists (Some e). rewrite run_app. apply exit_returns, exit_stable. by left.
    + apply IH; [lia|done|done|].
      intros j Hj. rewrite Ho by lia. apply Hsp. lia.
Qed.

End Returns.

(** Under the sequential schedule [DownloadChunks] returns, whatever the
    world answers. *)
Theorem DownloadChunks_returns (w : World) (url output : string)
    (chunks : list DownloadChunk) :
  exists r,
    returned (DownloadChunks w url output chunks (sequential (length chunks)))
    = Some r.
Proof.
  destruct (create_err w output) as [x|] eqn:Hc.
  { erewrite DownloadChunks_create_failure by done. by eexists. }
  destruct (rounds_return w url output (length chunks) 0
              (DownloadChunks_start w output chunks)) as [r Hr].
  - unfold DownloadChunks_start. rewrite Hc. cbn. by rewrite length_fmap.
  - unfold DownloadChunks_start. by rewrite Hc.
  - unfold DownloadChunks_start. by rewrite Hc.
  - intros j Hj. unfold DownloadChunks_start. rewrite Hc. cbn.
    destruct (lookup_lt_is_Some_2 chunks j ltac:(lia)) as [c Hj'].
    exists c. by rewrite list_lookup_fmap, Hj'.
  - exists r. unfold returned, DownloadChunks, sequential. by rewrite Hr.
Qed.

(** * Further properties of the code *)

Arguments GetFileSize : simpl never.
Arguments GetDownloadChunks : simpl never.
Arguments main_threads : simpl never.

(** ** The chunk planner: sizes and degenerate plans *)

(** Every chunk but the last has [size / threads] bytes and starts at its
    index times that; the last one has the [size mod threads] bytes of the
    remainder on top. *)
Theorem GetDownloadChunks_chunk_sizes (size threads : Z)
    (plan : list DownloadChunk) (k : nat) (c : DownloadChunk) :
  U64.in_range size -> 1 <= threads < U64.modulus ->
  GetDownloadChunks size threads = Ok plan ->
  plan !! k = Some c ->
  Start c = Z.of_nat k * (size / threads)
  /\ End c - Start c
     = if decide (Z.of_nat k = threads - 1)
       then size / threads + size mod threads
       else size / threads.
Proof.
  intros Hs Ht [_ ->]%GetDownloadChunks_Ok_inv; [|done..].
  intros [Hk ->]%plan_lookup.
  rewrite planned_Start. split; [done|].
  case_decide as Hlast.
  - rewrite planned_End_last by done.
    pose proof (Z.div_mod size threads ltac:(lia)). nia.
  - rewrite planned_End_inner by done. lia.
Qed.

Lemma GetDownloadChunks_chunk_sizes_witness :
  Start (mkChunk 666 1000) = Z.of_nat 2 * (1000 / 3)
  /\ End (mkChunk 666 1000) - Start (mkChunk 666 1000)
     = if decide (Z.of_nat 2 = 3 - 1) then 1000 / 3 + 1000 mod 3 else 1000 / 3.
Proof.
  assert (H1 : U64.in_range 1000) by (unfold U64.in_range, U64.modulus; lia).
  assert (H2 : 1 <= 3 < U64.modulus) by (unfold U64.modulus; lia).
  exact (GetDownloadChunks_chunk_sizes 1000 3
           [mkChunk 0 333; mkChunk 333 666; mkChunk 666 1000] 2 (mkChunk 666 1000)
           H1 H2 eq_refl eq_refl).
Defined.

(** With one worker the plan is the single chunk [{0, size}]. *)
Theorem GetDownloadChunks_single_worker (size : Z) :
  U64.in_range size -> GetDownloadChunks size 1 = Ok [mkChunk 0 size].
Proof.
  intros Hs. rewrite GetDownloadChunks_closed_form;
    [|done|rewrite modulus_value; lia|unfold chunk_bytes, maxAlloc; lia].
  cbn. unfold planned. cbn. by rewrite Z.div_1_r.
Qed.

Lemma GetDownloadChunks_single_worker_witness :
  GetDownloadChunks 12345 1 = Ok [mkChunk 0 12345].
Proof.
  apply GetDownloadChunks_single_worker.
  unfold U64.in_range, U64.modulus. lia.
Defined.

(** With more workers than bytes, and no more than the allocator takes,
    every chunk but the last is the empty [{0,0}] and the last one is the
    whole download [{0, size}]. *)
Theorem GetDownloadChunks_more_workers_than_bytes (size threads : Z) :
  U64.in_range size -> size < threads ->
  chunk_bytes * threads <= maxAlloc ->
  GetDownloadChunks size threads
  = Ok (replicate (Z.to_nat threads - 1) (mkChunk 0 0) ++ [mkChunk 0 size]).
Proof.
  intros Hs Ht Ha. destruct Hs as [Hs0 Hs1].
  assert (Hm : threads < U64.modulus)
    by (rewrite modulus_value; unfold chunk_bytes, maxAlloc in Ha; lia).
  rewrite GetDownloadChunks_closed_form by (unfold U64.in_range; lia).
  f_equal.
  replace (Z.to_nat threads) with (Z.to_nat threads - 1 + 1)%nat at 1 by lia.
  rewrite seq_app, fmap_app. cbn. f_equal.
  - apply list_eq_same_length with (Z.to_nat threads - 1)%nat.
    + by rewrite length_replicate.
    + by rewrite length_fmap, length_seq.
    + intros k c d Hk. rewrite list_lookup_fmap, lookup_seq_lt by done.
      rewrite lookup_replicate_2 by done. intros [= <-] [= <-].
      unfold planned. rewrite Z.div_small by lia.
      destruct (Z.eqb_spec (Z.of_nat k) (threads - 1)); [lia|].
      f_equal; lia.
  - unfold planned. rewrite Z.div_small by lia.
    destruct (Z.eqb_spec (Z.of_nat (Z.to_nat threads - 1)) (threads - 1)); [|lia].
    by rewrite Z.mul_0_r.
Qed.

Lemma GetDownloadChunks_more_workers_than_bytes_witness :
  GetDownloadChunks 2 4
  = Ok (replicate (Z.to_nat 4 - 1) (mkChunk 0 0) ++ [mkChunk 0 2]).
Proof.
  apply GetDownloadChunks_more_workers_than_bytes;
    unfold U64.in_range, U64.modulus, chunk_bytes, maxAlloc; lia.
Defined.

(** ** The size resolver: exact sizes and the one panic *)

(** A first [Content-Length] value that is the decimal text of a number
    from 0 to [2^63 - 1] is returned as that very number, whatever the
    status code, the body and the other header values of the response. *)
Theorem GetFileSize_exact (w : World) (url : string) (resp : Response)
    (v : string) (rest : list string) (n : Z) :
  http_head w url = inr resp ->
  Header resp !! "Content-Length" = Some (v :: rest) ->
  int64_decimal v n ->
  0 <= n ->
  (GetFileSize w url).2 = Ok (n, None).
Proof.
  intros Hh Hl Hd Hn. rewrite (GetFileSize_parsed w url resp v rest n) by done.
  destruct Hd as [_ Hr]. rewrite wrap_small; [done|].
  unfold U64.in_range. rewrite modulus_value. lia.
Qed.

Lemma GetFileSize_exact_witness :
  (GetFileSize (mkWorld
                  (fun _ => inr (mkResponse 404 {["Content-Length" := ["+42"; "7"]]} []))
                  (fun _ => None) (fun _ => None) (fun _ _ => inl "unused")
                  (fun _ => None) (fun _ => None))
               "http://h/f").2
  = Ok (42, None).
Proof.
  apply (GetFileSize_exact _ "http://h/f"
           (mkResponse 404 {["Content-Length" := ["+42"; "7"]]} []) "+42" ["7"] 42).
  - reflexivity.
  - reflexivity.
  - split; [reflexivity | lia].
  - lia.
Defined.

(** [GetFileSize] panics in one situation only: the response maps
    [Content-Length] to a slice that is not nil and has no element, where
    [contentSize[0]] is out of range. *)
Theorem GetFileSize_panics_iff (w : World) (url : string) :
  (exists msg, (GetFileSize w url).2 = Panic msg) <->
  (exists resp, http_head w url = inr resp
                /\ Header resp !! "Content-Length" = Some []).
Proof.
  unfold GetFileSize. cbn. split.
  - intros [msg H]. repeat case_match; simplify_eq. eauto.
  - intros (resp & -> & ->). eauto.
Qed.

(** ** The command line *)

(** The thread count is accepted exactly when the argument is the decimal
    text of an integer from 1 to [2^63 - 1], and is then that integer. *)
Theorem main_threads_accepts (arg : string) (t : Z) :
  main_threads arg = inr t <-> int64_decimal arg t /\ 1 <= t.
Proof.
  unfold main_threads. split.
  - destruct (strconv.ParseInt arg) as [e|n] eqn:Hp; [done|].
    pose proof (ParseInt_range _ _ Hp) as Hr.
    destruct (Z.leb_spec n 0); [done|]. intros [= <-].
    unfold U64.of_int64. rewrite wrap_small
      by (unfold U64.in_range; rewrite modulus_value; lia).
    split; [by apply ParseInt_spec|lia].
  - intros [Hd Ht]. pose proof Hd as [_ Hr]. apply ParseInt_spec in Hd as ->.
    destruct (Z.leb_spec t 0); [lia|].
    unfold U64.of_int64. rewrite wrap_small; [done|].
    unfold U64.in_range. rewrite modulus_value. lia.
Qed.

(** With an output path on the command line, a resolved size and an
    accepted thread count that the allocator takes, [main] starts the
    download of a plan that has as many chunks as threads and partitions
    the resolved size.  With an accepted thread count beyond what the
    allocator takes, [main] panics in [make] and starts nothing. *)
Theorem main_downloads_partition (w : World) (prog url arg output : string)
    (more : list string) (sched : list Pick) (size threads : Z) :
  (GetFileSize w url).2 = Ok (size, None) ->
  main_threads arg = inr threads ->
  (chunk_bytes * threads <= maxAlloc ->
     exists plan,
       partitions size plan
       /\ length plan = Z.to_nat threads
       /\ main w (prog :: url :: arg :: output :: more) sched
          = Ok (MainDownload (DownloadChunks w url output plan sched)))
  /\ (maxAlloc < chunk_bytes * threads ->
      main w (prog :: url :: arg :: output :: more) sched
      = Panic "makeslice: len out of range").
Proof.
  intros Hs Ht. pose proof (GetFileSize_size_range _ _ _ _ Hs) as Hr.
  pose proof (main_threads_positive _ _ Ht) as Hp.
  assert (Hp' : 1 <= threads < U64.modulus) by (rewrite modulus_value; lia).
  split.
  - intros Ha. exists (planned size threads <$> seq 0 (Z.to_nat threads)).
    split; [by apply plan_partitions|].
    split; [by rewrite length_fmap, length_seq|].
    unfold main. cbn. rewrite Hs. cbn. rewrite Ht.
    by rewrite GetDownloadChunks_closed_form.
  - intros Ha. unfold main. cbn. rewrite Hs. cbn. rewrite Ht.
    by rewrite GetDownloadChunks_too_many.
Qed.

Lemma main_downloads_partition_witness :
  exists plan,
    partitions 10 plan
    /\ length plan = Z.to_nat 3
    /\ main (example_world (Some ["10"]) (fun _ => 206) (fun _ => "abcd") (fun _ => None))
            ["gofast"; "http://h/f"; "3"; "out.bin"] []
       = Ok (MainDownload
               (DownloadChunks
                  (example_world (Some ["10"]) (fun _ => 206) (fun _ => "abcd")
                                 (fun _ => None))
                  "http://h/f" "out.bin" plan [])).
Proof.
  apply (proj1 (main_downloads_partition
                  (example_world (Some ["10"]) (fun _ => 206) (fun _ => "abcd")
                                 (fun _ => None))
                  "gofast" "http://h/f" "3" "out.bin" [] [] 10 3 eq_refl eq_refl)).
  unfold chunk_bytes, maxAlloc. lia.
Defined.

(** The usage test lets a command line without output path through:
    with exactly the URL and the thread count, [main] never starts a
    download; once the size is resolved and the thread count accepted it
    panics, on [os.Args[3]] when the allocator takes the plan, and in
    [make] before that when it does not. *)
Theorem main_without_output_path (w : World) (prog url arg : string)
    (sched : list Pick) :
  (forall s, main w [prog; url; arg] sched <> Ok (MainDownload s))
  /\ (forall size threads,
        (GetFileSize w url).2 = Ok (size, None) ->
        main_threads arg = inr threads ->
        (chunk_bytes * threads <= maxAlloc ->
           main w [prog; url; arg] sched = Panic "index out of range")
        /\ (maxAlloc < chunk_bytes * threads ->
            main w [prog; url; arg] sched = Panic "makeslice: len out of range")).
Proof.
  split.
  - intros s. unfold main. cbn.
    destruct (GetFileSize w url).2 as [[size [e|]]| |]; cbn; try done.
    destruct (main_threads arg) as [e|t]; [done|].
    by destruct (GetDownloadChunks size t).
  - intros size threads Hs Ht.
    pose proof (GetFileSize_size_range _ _ _ _ Hs) as Hr.
    pose proof (main_threads_positive _ _ Ht) as Hp.
    assert (Hp' : 1 <= threads < U64.modulus) by (rewrite modulus_value; lia).
    split; intros Ha; unfold main; cbn; rewrite Hs; cbn; rewrite Ht.
    + by rewrite GetDownloadChunks_closed_form.
    + by rewrite GetDownloadChunks_too_many.
Qed.

Lemma main_without_output_path_witness :
  main (example_world (Some ["10"]) (fun _ => 206) (fun _ => "abcd") (fun _ => None))
       ["gofast"; "http://h/f"; "3"] []
  = Panic "index out of range".
Proof.
  refine (proj1 (proj2 (main_without_output_path
                          (example_world (Some ["10"]) (fun _ => 206)
                                         (fun _ => "abcd") (fun _ => None))
                          "gofast" "http://h/f" "3" [])
                   10 3 eq_refl eq_refl) _).
  unfold chunk_bytes, maxAlloc. lia.
Defined.

(** ** The steps of a download *)

Section Transitions.

Context (w : World) (url output : string).

(** The relation [transition] lists the steps of [step], all of them and
    nothing else. *)
Lemma step_transition (p : Pick) (s s' : State) :
  step w url output p s = Some s' -> transition w url output s s'.
Proof.
  destruct p as [k|k|]; cbn [step].
  - unfold run_task. destruct (tasks s !! k) as [t|] eqn:Ht; [cbn|done].
    destruct (pc t) as [|resp|resp|resp|err locked| |] eqn:Hpc; try done.
    + destruct (new_request_err w url) as [x|] eqn:Hnr.
      { intros [= <-]. by eapply T_request_refused. }
      destruct (http_do w k _) as [x|resp] eqn:Hdo.
      { intros [= <-]. by eapply T_transport_failed. }
      destruct (Z.eqb_spec (StatusCode resp) StatusPartialContent);
        intros [= <-]; [by eapply T_answered|by eapply T_status_rejected].
    + destruct (mutex s) eqn:Hm; [done|]. intros [= <-]. by eapply T_locked.
    + destruct (Seek w k _ (file s)) as [x|f] eqn:Hseek; intros [= <-];
        [by eapply T_seek_failed|by eapply T_sought].
    + unfold Copy. destruct (closed (file s)) eqn:Hcl.
      { intros [= <-]. by eapply T_copy_refused. }
      destruct (copy_fault w k) as [[n x]|] eqn:Hcf; intros [= <-];
        [by eapply T_copy_failed|by eapply T_copied].
    + intros [= <-]. by eapply T_unlocked.
  - unfold recv_from. destruct (coord s) as [i| |] eqn:Hc; try done.
    destruct (decide _) as [Hi|]; [|done].
    destruct (tasks s !! k) as [t|] eqn:Ht; [cbn|done].
    destruct (pc t) eqn:Hpc; try done. intros [= <-]. by eapply T_received.
  - unfold run_coord. destruct (coord s) as [i|ret|ret] eqn:Hc; try done.
    + destruct (decide _); [done|]. intros [= <-]. by eapply T_left.
    + intros [= <-]. by eapply T_closed.
Qed.

Lemma transition_step (s s' : State) :
  transition w url output s s' -> exists p, step w url output p s = Some s'.
Proof.
  intros Htr.
  destruct Htr as [k t x Ht Hpc Hnr|k t x Ht Hpc Hnr Hdo|k t resp Ht Hpc Hnr Hdo Hst
    |k t resp Ht Hpc Hnr Hdo Hst|k t resp Ht Hpc Hm|k t resp x Ht Hpc Hs
    |k t resp f Ht Hpc Hs|k t resp Ht Hpc Hcl|k t resp n x Ht Hpc Hcl Hcf
    |k t resp Ht Hpc Hcl Hcf|k t Ht Hpc|k t i err locked Hc Hi Ht Hpc|i Hc Hi|ret Hc].
  1-11: exists (Run k); cbn [step]; unfold run_task; rewrite Ht; cbn; rewrite Hpc.
  - by rewrite Hnr.
  - by rewrite Hnr, Hdo.
  - rewrite Hnr, Hdo. by destruct (Z.eqb_spec (StatusCode resp) StatusPartialContent).
  - rewrite Hnr, Hdo. by destruct (Z.eqb_spec (StatusCode resp) StatusPartialContent).
  - by rewrite Hm.
  - by rewrite Hs.
  - by rewrite Hs.
  - unfold Copy. by rewrite Hcl.
  - unfold Copy. by rewrite Hcl, Hcf.
  - unfold Copy. by rewrite Hcl, Hcf.
  - done.
  - exists (Recv k). cbn [step]. unfold recv_from. rewrite Hc.
    destruct (decide _); [|done]. rewrite Ht. cbn. by rewrite Hpc.
  - exists Coord. cbn [step]. unfold run_coord. rewrite Hc.
    by destruct (decide _).
  - exists Coord. cbn [step]. unfold run_coord. by rewrite Hc.
Qed.

End Transitions.

(** ** The lock protects the cursor *)

Lemma lookup_alter_pc (l : list Task) (k j : nat) (p' : TaskPc) (t' : Task) :
  alter (fun t => mkTask (chunk t) p') k l !! j = Some t' <->
  (j = k /\ exists t, l !! k = Some t /\ t' = mkTask (chunk t) p')
  \/ (j <> k /\ l !! j = Some t').
Proof.
  destruct (decide (k = j)) as [->|].
  - rewrite list_lookup_alter_eq. destruct (l !! j) as [t|]; cbn.
    + split; [intros [= <-]; left; eauto|].
      intros [(_ & t1 & [= <-] & ->)|[? _]]; done.
    + split; [done|]. intros [(_ & t1 & ? & _)|[? _]]; done.
  - rewrite list_lookup_alter_ne by done. split; [right; eauto|].
    intros [[-> _]|[_ ?]]; done.
Qed.

(** ** The request of a chunk task *)

Section Requests.

Context (w : World) (url output : string).

(** Leaving [TSpawned] with a request that could be built logs it, and no
    step takes a request out of the log. *)
Lemma requests_sent_transition (s s' : State) :
  transition w url output s s' ->
  requests_sent w url s -> requests_sent w url s'.
Proof.
  intros Htr Hs j t' Hj Hp Hnr'.
  assert (Hold : forall t0, tasks s !! j = Some t0 -> pc t0 <> TSpawned ->
            EvRequest j (chunkRequest url (Start (chunk t0)) (End (chunk t0)))
              ∈ trace s)
    by (intros t0 H0 Hp0; by apply Hs).
  destruct Htr as [k t x Ht Hpc Hnr|k t x Ht Hpc Hnr Hdo|k t resp Ht Hpc Hnr Hdo Hst
    |k t resp Ht Hpc Hnr Hdo Hst|k t resp Ht Hpc Hm|k t resp x Ht Hpc Hs'
    |k t resp f Ht Hpc Hs'|k t resp Ht Hpc Hcl|k t resp n x Ht Hpc Hcl Hcf
    |k t resp Ht Hpc Hcl Hcf|k t Ht Hpc|k t i err locked Hc Hi Ht Hpc|i Hc Hi|ret Hc];
    cbn [tasks trace set_pc set_mutex set_file set_coord log] in Hj |- *;
    [..|by apply Hold|by apply Hold];
    apply lookup_alter_pc in Hj as [(-> & t0 & Ht0 & ->)|[Hne Hj]];
    cbn [chunk]; rewrite ?elem_of_app;
    try (assert (t0 = t) as -> by congruence).
  all: try (by left; apply Hold).
  all: try (by apply Hold; [|congruence]).
  all: try (by left; apply Hold; [|congruence]).
  all: right; by apply list_elem_of_singleton.
Qed.

Lemma requests_sent_start (chunks : list DownloadChunk) :
  requests_sent w url (DownloadChunks_start w output chunks).
Proof.
  intros k t Ht Hp _. unfold DownloadChunks_start in Ht.
  destruct (create_err w output); cbn in Ht; [done|].
  by apply list_lookup_fmap_Some in Ht as (c & -> & _).
Qed.

Lemma requests_sent_run (sched : list Pick) : forall s,
  requests_sent w url s -> requests_sent w url (run w url output sched s).
Proof.
  induction sched as [|p sched IH]; intros s Hs; [done|].
  cbn. unfold exec at 2.
  destruct (step w url output p s) as [s'|] eqn:Hst; cbn; [|by apply IH].
  apply IH. eapply requests_sent_transition; [|done].
  by eapply step_transition.
Qed.

End Requests.

(** C7: the request of a chunk task is a [GET] of the download URL whose
    [Range] header is [bytes=s-e], where [s] and [e] are the decimal
    numerals, without a leading zero, of the [Start] and of the [End] of
    that task's chunk as planned: [e] goes into the header unchanged.
    Every request in a run is of that form; every task past its first
    step has sent the request for its own chunk when the request could be
    built, and the first step of a task does send it; for the chunk
    [{333, 666}] the header is [bytes=333-666]. *)
Theorem DownloadChunks_range_header (w : World) (url output : string)
    (chunks : list DownloadChunk) (sched : list Pick) :
  Forall (fun c => 0 <= Start c /\ 0 <= End c) chunks ->
  let s := DownloadChunks w url output chunks sched in
  (forall k req, EvRequest k req ∈ trace s ->
     exists c ds de,
       chunks !! k = Some c
       /\ Method req = "GET" /\ URL req = url
       /\ ReqHeader req !! "Range" = Some ["bytes=" +:+ ds +:+ "-" +:+ de]
       /\ decimal_nat ds = Some (Start c) /\ leading_zero ds = false
       /\ decimal_nat de = Some (End c) /\ leading_zero de = false)
  /\ (forall k t, tasks s !! k = Some t -> pc t <> TSpawned ->
        new_request_err w url = None ->
        chunks !! k = Some (chunk t)
        /\ EvRequest k (chunkRequest url (Start (chunk t)) (End (chunk t)))
             ∈ trace s)
  /\ (forall s0 k c, tasks s0 !! k = Some (mkTask c TSpawned) ->
        new_request_err w url = None ->
        exists s1,
          run_task w url output k s0 = Some s1
          /\ trace s1
             = trace s0 ++ [EvRequest k (chunkRequest url (Start c) (End c))])
  /\ ReqHeader (chunkRequest url 333 666) !! "Range" = Some ["bytes=333-666"].
Proof.
  intros Hty s. split; [|split; [|split]].
  - destruct (create_err w output) as [x|] eqn:Hc.
    { unfold s. erewrite DownloadChunks_create_failure by done.
      by intros k req ?%elem_of_nil. }
    intros k req (c & Hk & ->)%(inv_request _ _ _ _ _
      (invariant_DownloadChunks w url output chunks sched Hc)).
    destruct (proj1 (Forall_lookup _ _) Hty k c Hk) as [Hs He].
    exists c, (fmt_d (Start c)), (fmt_d (End c)).
    split; [done|]. split; [done|]. split; [done|].
    split; [cbn; by rewrite lookup_insert_eq|].
    split; [by apply fmt_d_decimal|]. split; [by apply fmt_d_no_leading_zero|].
    split; [by apply fmt_d_decimal|]. by apply fmt_d_no_leading_zero.
  - intros k t Ht Hp Hnr. split.
    + destruct (create_err w output) as [x|] eqn:Hc.
      { unfold s in Ht. by erewrite DownloadChunks_create_failure in Ht by done. }
      rewrite <- (inv_chunks _ _ _ _ _
        (invariant_DownloadChunks w url output chunks sched Hc)).
      fold s. by rewrite list_lookup_fmap, Ht.
    + by apply (requests_sent_run w url output sched _
                  (requests_sent_start w url output chunks)).
  - intros s0 k c Ht Hnr. unfold run_task. rewrite Ht. cbn. rewrite Hnr.
    destruct (http_do w k (chunkRequest url (Start c) (End c))) as [x|resp];
      [|destruct (StatusCode resp =? StatusPartialContent)];
      by eexists.
  - cbn. by rewrite lookup_insert_eq.
Qed.

Lemma DownloadChunks_range_header_witness :
  let w := example_world None (fun _ => 206) (fun _ => "abc") (fun _ => None) in
  let chunks := [mkChunk 0 333; mkChunk 333 666; mkChunk 666 1000] in
  let s := DownloadChunks w "http://h/f" "out.bin" chunks [Run 1%nat] in
  Forall (fun c => 0 <= Start c /\ 0 <= End c) chunks
  /\ exists req,
       trace s = [EvRequest 1%nat req]
       /\ Method req = "GET" /\ URL req = "http://h/f"
       /\ ReqHeader req !! "Range" = Some ["bytes=333-666"].
Proof.
  intros w chunks s.
  assert (Hty : Forall (fun c => 0 <= Start c /\ 0 <= End c) chunks)
    by (repeat constructor; cbn; lia).
  split; [exact Hty|].
  destruct (DownloadChunks_range_header w "http://h/f" "out.bin" chunks
              [Run 1%nat] Hty) as (_ & _ & _ & Hh).
  exists (chunkRequest "http://h/f" 333 666).
  split; [reflexivity|]. split; [reflexivity|]. split; [reflexivity|].
  exact Hh.
Defined.

(** A step of task [k] keeps the exclusion when it takes the free mutex,
    keeps what it has, or gives the mutex back, and when only the holder
    moves the cursor. *)
Lemma exclusion_local (s s' : State) (k : nat) (t : Task) (p' : TaskPc) :
  exclusion s ->
  tasks s !! k = Some t ->
  tasks s' = alter (fun t => mkTask (chunk t) p') k (tasks s) ->
  is_returned (coord s') = is_returned (coord s) ->
  closed (file s') = closed (file s) ->
  (holds (pc t) = false /\ holds p' = true /\ mutex s = false /\ mutex s' = true)
  \/ (holds p' = holds (pc t) /\ mutex s' = mutex s)
  \/ (holds (pc t) = true /\ holds p' = false /\ mutex s' = false) ->
  (forall resp, p' = TCopying resp -> cursor (file s') = Start (chunk t)) ->
  (holds (pc t) = false -> cursor (file s') = cursor (file s)) ->
  exclusion s'.
Proof.
  intros [Hrg Huq Hfr Hhe Hcu Hcl] Ht Htasks Hret Hclosed Hlock Hseek Hcur.
  assert (Hlk : forall j t', tasks s' !! j = Some t' <->
    (j = k /\ t' = mkTask (chunk t) p') \/ (j <> k /\ tasks s !! j = Some t')).
  { intros j t'. rewrite Htasks, lookup_alter_pc. split.
    - intros [(-> & t0 & Ht0 & ->)|?]; [left|by right]. by simplify_eq.
    - intros [[-> ->]|?]; [left; eauto|by right]. }
  split.
  - intros j t' [[-> ->]|[_ Hj]]%Hlk; cbn; eauto.
  - intros i j ti tj [[-> ->]|[Hi Hti]]%Hlk [[-> ->]|[Hj Htj]]%Hlk; cbn;
      intros Hhi Hhj; try done.
    + exfalso. destruct Hlock as [(_ & _ & Hm & _)|[[He _]|(_ & He & _)]].
      * rewrite (Hfr Hm _ _ Htj) in Hhj. done.
      * rewrite He in Hhi. by specialize (Huq _ _ _ _ Ht Htj Hhi Hhj).
      * congruence.
    + exfalso. destruct Hlock as [(_ & _ & Hm & _)|[[He _]|(_ & He & _)]].
      * rewrite (Hfr Hm _ _ Hti) in Hhi. done.
      * rewrite He in Hhj. by specialize (Huq _ _ _ _ Hti Ht Hhi Hhj).
      * congruence.
    + by eapply Huq.
  - intros Hm j t' [[-> ->]|[Hj Htj]]%Hlk; cbn.
    + destruct Hlock as [(_ & _ & _ & ?)|[[He Hm']|(_ & ? & _)]]; [congruence| |done].
      rewrite He. eapply Hfr; [congruence|done].
    + destruct Hlock as [(_ & _ & _ & ?)|[[He Hm']|(Hh & _ & _)]]; [congruence| |].
      * eapply Hfr; [congruence|done].
      * destruct (holds (pc t')) eqn:Hh'; [|done].
        by specialize (Huq _ _ _ _ Ht Htj Hh Hh').
  - intros Hm. destruct Hlock as [(_ & Hh & _ & _)|[[He Hm']|(_ & _ & ?)]];
      [| |congruence].
    + exists k, (mkTask (chunk t) p'). split; [apply Hlk; by left|done].
    + destruct (Hhe ltac:(congruence)) as (h & th & Hth & Hh).
      destruct (decide (h = k)) as [->|].
      * exists k, (mkTask (chunk t) p'). split; [apply Hlk; by left|].
        cbn. rewrite He. by simplify_eq.
      * exists h, th. split; [apply Hlk; by right|done].
  - intros j t' resp [[-> ->]|[Hj Htj]]%Hlk; cbn.
    + apply Hseek.
    + intros Hp. destruct (holds (pc t)) eqn:Hh.
      * exfalso. apply Hj. apply (Huq j k t' t Htj Ht); [by rewrite Hp|done].
      * rewrite Hcur by done. by eapply Hcu.
  - by rewrite Hclosed, Hret.
Qed.

Section Exclusion.

Context (w : World) (url output : string).

Lemma Seek_inr (k : nat) (z : Z) (f f' : File) :
  U64.in_range z ->
  Seek w k (U64.to_int64 z) f = inr f' ->
  closed f' = closed f /\ contents f' = contents f /\ cursor f' = z.
Proof.
  unfold Seek, U64.to_int64, U64.in_range. rewrite modulus_value.
  intros Hz Hs. destruct (closed f); [done|].
  destruct (seek_fault w k); [done|].
  destruct (Z.ltb_spec z (2 ^ 63)).
  - destruct (Z.ltb_spec z 0); [lia|]. by simplify_eq.
  - destruct (Z.ltb_spec (z - 18446744073709551616) 0); [done|lia].
Qed.

Lemma exclusion_transition (s s' : State) :
  exclusion s -> transition w url output s s' -> exclusion s'.
Proof.
  intros Hex Htr.
  destruct Htr as [k t x Ht Hpc Hnr|k t x Ht Hpc Hnr Hdo|k t resp Ht Hpc Hnr Hdo Hst
    |k t resp Ht Hpc Hnr Hdo Hst|k t resp Ht Hpc Hm|k t resp x Ht Hpc Hs
    |k t resp f Ht Hpc Hs|k t resp Ht Hpc Hcl|k t resp n x Ht Hpc Hcl Hcf
    |k t resp Ht Hpc Hcl Hcf|k t Ht Hpc|k t i err locked Hc Hi Ht Hpc|i Hc Hi|ret Hc].
  - eapply (exclusion_local s _ k t); [done|done|done|done|done| |done|done].
    right; left. by rewrite Hpc.
  - eapply (exclusion_local s _ k t); [done|done|done|done|done| |done|done].
    right; left. by rewrite Hpc.
  - eapply (exclusion_local s _ k t); [done|done|done|done|done| |done|done].
    right; left. by rewrite Hpc.
  - eapply (exclusion_local s _ k t); [done|done|done|done|done| |done|done].
    right; left. by rewrite Hpc.
  - eapply (exclusion_local s _ k t); [done|done|done|done|done| |done|done].
    left. by rewrite Hpc.
  - eapply (exclusion_local s _ k t); [done|done|done|done|done| |done|done].
    right; left. by rewrite Hpc.
  - (* after a seek the cursor is at the start of the chunk *)
    apply (Seek_inr _ _ _ _ (ex_range _ Hex _ _ Ht)) in Hs as (Hs1 & Hs2 & Hs3).
    eapply (exclusion_local s _ k t); [done|done|done|done|done| | |].
    + right; left. by rewrite Hpc.
    + done.
    + by rewrite Hpc.
  - eapply (exclusion_local s _ k t); [done|done|done|done|done| |done|done].
    right; left. by rewrite Hpc.
  - eapply (exclusion_local s _ k t); [done|done|done|done|by cbn| |done|].
    + right; left. by rewrite Hpc.
    + by rewrite Hpc.
  - eapply (exclusion_local s _ k t); [done|done|done|done|by cbn| |done|].
    + right; right. by rewrite Hpc.
    + by rewrite Hpc.
  - eapply (exclusion_local s _ k t); [done|done|done|done|done| |done|done].
    right; right. by rewrite Hpc.
  - eapply (exclusion_local s _ k t); [done|done|done| |done| | |done].
    + cbn. rewrite Hc. by destruct err.
    + right; left. rewrite Hpc. by destruct locked.
    + by destruct locked.
  - destruct Hex as [Hrg Huq Hfr Hhe Hcu Hcl]. split; cbn; try done.
    by rewrite Hc in Hcl.
  - destruct Hex as [Hrg Huq Hfr Hhe Hcu Hcl]. split; cbn; done.
Qed.

End Exclusion.

(** ** One request, one write, one report *)

Lemma requesters_snoc (tr : list Event) (e : Event) :
  requesters (tr ++ [e])
  = requesters tr ++ match e with EvRequest k _ => [k] | _ => [] end.
Proof. unfold requesters. rewrite omap_app. by destruct e. Qed.

Lemma writers_snoc (tr : list Event) (e : Event) :
  writers (tr ++ [e])
  = writers tr ++ match e with EvWrite k _ _ => [k] | _ => [] end.
Proof. unfold writers. rewrite omap_app. by destruct e. Qed.

Section Discipline.

Context (w : World) (url output : string).

(** A local step of task [k] that logs at most one event of its own. *)
Lemma discipline_local (s s' : State) (k : nat) (t : Task) (p' : TaskPc)
    (ev : option Event) :
  discipline w url s ->
  tasks s !! k = Some t ->
  tasks s' = alter (fun t => mkTask (chunk t) p') k (tasks s) ->
  trace s' = trace s ++ option_list ev ->
  match ev with
  | None => True
  | Some (EvRequest j _) => j = k /\ pc t = TSpawned
  | Some (EvWrite j off data) =>
      j = k /\ before_copy (pc t) = true
      /\ exists resp m, got206 w url k (chunk t) resp
           /\ off = Start (chunk t) /\ data = take m (Body resp)
  | Some _ => False
  end ->
  match p' with
  | TSpawned | TUnlocking => False
  | TLocking _ | TSeeking _ | TCopying _ =>
      before_copy (pc t) = true /\ writers (option_list ev) = []
  | TSending None locked =>
      locked = false
      /\ exists resp, got206 w url k (chunk t) resp
           /\ ev = Some (EvWrite k (Start (chunk t)) (Body resp))
  | TSending (Some _) _ => True
  | TExited => pc t = TUnlocking
  end ->
  pc t <> TExited ->
  discipline w url s'.
Proof.
  intros [Hrq Hwr Hsp Huw Hw Hsu Hre Hdn] Ht Htasks Htrace Hev Hp' Hne.
  assert (Hlk : forall j t', tasks s' !! j = Some t' <->
    (j = k /\ t' = mkTask (chunk t) p') \/ (j <> k /\ tasks s !! j = Some t')).
  { intros j t'. rewrite Htasks, lookup_alter_pc. split.
    - intros [(-> & t0 & Ht0 & ->)|?]; [left|by right]. by simplify_eq.
    - intros [[-> ->]|?]; [left; eauto|by right]. }
  assert (Hrecv : received (trace s') = received (trace s)).
  { rewrite Htrace. destruct ev as [e|]; cbn; [|by rewrite app_nil_r].
    rewrite received_snoc. destruct e; try done; by rewrite app_nil_r. }
  assert (Hreqs : forall j, j ∈ requesters (trace s') ->
    j ∈ requesters (trace s) \/ (j = k /\ pc t = TSpawned)).
  { intros j. rewrite Htrace. destruct ev as [e|]; cbn; [|rewrite app_nil_r; eauto].
    rewrite requesters_snoc. intros [?|Hj]%elem_of_app; [by left|].
    destruct e; try (by apply elem_of_nil in Hj).
    apply list_elem_of_singleton in Hj as ->. by right. }
  assert (Hwrs : forall j, j ∈ writers (trace s') ->
    j ∈ writers (trace s) \/ (j = k /\ before_copy (pc t) = true
                              /\ writers (option_list ev) <> [])).
  { intros j. rewrite Htrace. destruct ev as [e|]; cbn; [|rewrite app_nil_r; eauto].
    rewrite writers_snoc. intros [?|Hj]%elem_of_app; [by left|].
    destruct e; try (by apply elem_of_nil in Hj).
    apply list_elem_of_singleton in Hj as ->. right.
    destruct Hev as (-> & ? & _). done. }
  assert (Hsub : forall e, e ∈ trace s -> e ∈ trace s').
  { intros e He. rewrite Htrace. apply elem_of_app. by left. }
  split.
  - rewrite Htrace. destruct ev as [e|]; cbn; [|by rewrite app_nil_r].
    rewrite requesters_snoc. destruct e; try (by rewrite app_nil_r).
    destruct Hev as [-> Hpc]. apply NoDup_app. split; [done|].
    split; [|apply NoDup_singleton].
    intros j Hj ->%list_elem_of_singleton. by eapply Hsp.
  - rewrite Htrace. destruct ev as [e|]; cbn; [|by rewrite app_nil_r].
    rewrite writers_snoc. destruct e; try (by rewrite app_nil_r).
    destruct Hev as (-> & Hb & _). apply NoDup_app. split; [done|].
    split; [|apply NoDup_singleton].
    intros j Hj ->%list_elem_of_singleton. by eapply Huw.
  - intros j t' [[-> ->]|[Hj Htj]]%Hlk; cbn.
    + intros ->. done.
    + intros Hpc [?|[? _]]%Hreqs; [by eapply Hsp|done].
  - intros j t' [[-> ->]|[Hj Htj]]%Hlk; cbn.
    + intros Hb [Hin|(_ & _ & Hin)]%Hwrs.
      * destruct p'; try done; destruct Hp' as [Hb' _]; by eapply Huw.
      * destruct p'; try done; by destruct Hp' as [_ ?].
    + intros Hb [?|[? _]]%Hwrs; [by eapply Huw|done].
  - intros j off data. rewrite Htrace. intros [Hin|Hin]%elem_of_app.
    + destruct (Hw _ _ _ Hin) as (t0 & resp & m & Ht0 & Hg & Ho & Hd).
      destruct (decide (j = k)) as [->|].
      * assert (t0 = t) as -> by congruence.
        exists (mkTask (chunk t) p'), resp, m. split; [apply Hlk; by left|done].
      * exists t0, resp, m. split; [apply Hlk; by right|done].
    + destruct ev as [e|]; cbn in Hin; [|by apply elem_of_nil in Hin].
      apply list_elem_of_singleton in Hin as <-.
      destruct Hev as (-> & _ & resp & m & Hg & Ho & Hd).
      exists (mkTask (chunk t) p'), resp, m. split; [apply Hlk; by left|done].
  - intros j t' locked [[-> ->]|[Hj Htj]]%Hlk; cbn.
    + intros ->. destruct Hp' as [-> (resp & Hg & ->)]. split; [done|].
      exists resp. split; [done|]. rewrite Htrace. apply elem_of_app. right.
      by apply list_elem_of_singleton.
    + intros Hpc. destruct (Hsu _ _ _ Htj Hpc) as [-> (resp & Hg & Hin)].
      split; [done|]. exists resp. eauto.
  - intros j. rewrite Hrecv.
    intros (t0 & resp & Ht0 & Hpc0 & Hg & Hin)%Hre.
    destruct (decide (j = k)) as [->|]; [congruence|].
    exists t0, resp. split; [apply Hlk; by right|eauto].
  - intros j t' [[-> ->]|[Hj Htj]]%Hlk; cbn; rewrite Hrecv.
    + intros [->| ->]; [done|]. eapply Hdn; [done|by left].
    + by apply Hdn.
Qed.

Lemma discipline_received (s : State) (k : nat) (t : Task) (c : CoordPc)
    (err : option error) (locked : bool) :
  discipline w url s ->
  invariant w url output (chunk <$> tasks s) s ->
  tasks s !! k = Some t ->
  pc t = TSending err locked ->
  discipline w url
    (set_coord c (log (EvRecv k err)
                    (set_pc k (if locked then TUnlocking else TExited) s))).
Proof.
  intros [Hrq Hwr Hsp Huw Hw Hsu Hre Hdn] Hinv Ht Hpc.
  assert (Hfresh : forall e, (k, e) ∉ received (trace s)).
  { intros e (t' & Ht' & [?|?] & _)%(inv_recv _ _ _ _ _ Hinv); congruence. }
  split; cbn.
  - by rewrite requesters_snoc, app_nil_r.
  - by rewrite writers_snoc, app_nil_r.
  - intros j t' [(-> & t0 & Ht0 & ->)|[Hj Htj]]%lookup_alter_pc; cbn.
    + by destruct locked.
    + rewrite requesters_snoc, app_nil_r. by apply Hsp.
  - intros j t' [(-> & t0 & Ht0 & ->)|[Hj Htj]]%lookup_alter_pc; cbn.
    + by destruct locked.
    + rewrite writers_snoc, app_nil_r. by apply Huw.
  - intros j off data [Hin|[=]%list_elem_of_singleton]%elem_of_app.
    destruct (Hw _ _ _ Hin) as (t0 & resp & m & Ht0 & Hg).
    destruct (decide (j = k)) as [->|].
    + exists (mkTask (chunk t0) (if locked then TUnlocking else TExited)), resp, m.
      split; [|done].
      apply lookup_alter_pc. left. split; [done|]. by exists t0.
    + exists t0, resp, m. split; [|done]. apply lookup_alter_pc. by right.
  - intros j t' l [(-> & t0 & Ht0 & ->)|[Hj Htj]]%lookup_alter_pc; cbn.
    + by destruct locked.
    + intros Hp. destruct (Hsu _ _ _ Htj Hp) as [-> (resp & Hg & Hin)].
      split; [done|]. exists resp. split; [done|]. apply elem_of_app. by left.
  - intros j. rewrite received_snoc.
    intros [Hin|[= -> <-]%list_elem_of_singleton]%elem_of_app.
    + destruct (Hre _ Hin) as (t0 & resp & Ht0 & Hp0 & Hg & Hin').
      assert (j <> k) by (intros ->; congruence).
      exists t0, resp. split; [apply lookup_alter_pc; by right|].
      split; [done|]. split; [done|]. apply elem_of_app. by left.
    + destruct (Hsu _ _ _ Ht Hpc) as [-> (resp & Hg & Hin)].
      exists (mkTask (chunk t) TExited), resp.
      split; [apply lookup_alter_pc; left; eauto|].
      split; [done|]. split; [done|]. apply elem_of_app. by left.
  - intros j t' [(-> & t0 & Ht0 & ->)|[Hj Htj]]%lookup_alter_pc; cbn;
      rewrite received_snoc.
    + intros _. exists err. apply elem_of_app. right.
      by apply list_elem_of_singleton.
    + intros Hp. destruct (Hdn _ _ Htj Hp) as [e He].
      exists e. apply elem_of_app. by left.
Qed.

Lemma discipline_transition (s s' : State) :
  invariant w url output (chunk <$> tasks s) s ->
  exclusion s ->
  discipline w url s ->
  transition w url output s s' ->
  discipline w url s'.
Proof.
  intros Hinv Hex Hd Htr.
  destruct Htr as [k t x Ht Hpc Hnr|k t x Ht Hpc Hnr Hdo|k t resp Ht Hpc Hnr Hdo Hst
    |k t resp Ht Hpc Hnr Hdo Hst|k t resp Ht Hpc Hm|k t resp x Ht Hpc Hs
    |k t resp f Ht Hpc Hs|k t resp Ht Hpc Hcl|k t resp n x Ht Hpc Hcl Hcf
    |k t resp Ht Hpc Hcl Hcf|k t Ht Hpc|k t i err locked Hc Hi Ht Hpc|i Hc Hi|ret Hc].
  - eapply (discipline_local s _ k t _ None); try done.
    + cbn. by rewrite app_nil_r.
    + congruence.
  - eapply (discipline_local s _ k t _ (Some (EvRequest k _))); try done.
    congruence.
  - eapply (discipline_local s _ k t _ (Some (EvRequest k _))); try done.
    congruence.
  - eapply (discipline_local s _ k t _ (Some (EvRequest k _))); try done.
    + by rewrite Hpc.
    + congruence.
  - eapply (discipline_local s _ k t _ None); try done.
    + cbn. by rewrite app_nil_r.
    + by rewrite Hpc.
    + congruence.
  - eapply (discipline_local s _ k t _ None); try done.
    + cbn. by rewrite app_nil_r.
    + congruence.
  - eapply (discipline_local s _ k t _ None); try done.
    + cbn. by rewrite app_nil_r.
    + by rewrite Hpc.
    + congruence.
  - eapply (discipline_local s _ k t _ None); try done.
    + cbn. by rewrite app_nil_r.
    + congruence.
  - pose proof (inv_pc _ _ _ _ _ Hinv k t Ht) as Hg. unfold pc_ok in Hg.
    rewrite Hpc in Hg.
    eapply (discipline_local s _ k t _ (Some (EvWrite k _ _))); try done.
    + split; [done|]. split; [by rewrite Hpc|].
      exists resp, n. split; [done|]. split; [|done].
      by eapply ex_cursor.
    + congruence.
  - pose proof (inv_pc _ _ _ _ _ Hinv k t Ht) as Hg. unfold pc_ok in Hg.
    rewrite Hpc in Hg.
    pose proof (ex_cursor _ Hex _ _ _ Ht Hpc) as Hcur.
    eapply (discipline_local s _ k t _
              (Some (EvWrite k (Start (chunk t)) (Body resp)))).
    + done.
    + done.
    + done.
    + cbn. by rewrite Hcur.
    + split; [done|]. split; [by rewrite Hpc|].
      exists resp, (length (Body resp)). split; [done|]. split; [done|].
      by rewrite firstn_all.
    + split; [done|]. by exists resp.
    + congruence.
  - eapply (discipline_local s _ k t _ None); try done.
    + cbn. by rewrite app_nil_r.
    + congruence.
  - by eapply discipline_received.
  - destruct Hd. by split.
  - destruct Hd. by split.
Qed.

End Discipline.

(** ** What holds of every state of a download *)

Section Sound.

Context (w : World) (url output : string) (chunks : list DownloadChunk).

Hypothesis created : create_err w output = None.
Hypothesis typed : Forall (fun c => U64.in_range (Start c)) chunks.

Lemma exclusion_start : exclusion (DownloadChunks_start w output chunks).
Proof.
  unfold DownloadChunks_start. rewrite created. split; cbn.
  - intros k t [c [-> Hc]]%list_lookup_fmap_Some. cbn.
    by apply (proj1 (Forall_lookup _ _) typed k c).
  - by intros j k tj tk [c [-> _]]%list_lookup_fmap_Some.
  - by intros _ k t [c [-> _]]%list_lookup_fmap_Some.
  - done.
  - by intros k t resp [c [-> _]]%list_lookup_fmap_Some.
  - done.
Qed.

Lemma discipline_start : discipline w url (DownloadChunks_start w output chunks).
Proof.
  unfold DownloadChunks_start. rewrite created. split; cbn.
  - constructor.
  - constructor.
  - by intros k t _ _ ?%elem_of_nil.
  - by intros k t _ _ ?%elem_of_nil.
  - by intros k off data ?%elem_of_nil.
  - by intros k t l [c [-> _]]%list_lookup_fmap_Some.
  - by intros k ?%elem_of_nil.
  - by intros k t [c [-> _]]%list_lookup_fmap_Some [|].
Qed.

Lemma sound_run (sched : list Pick) : forall s,
  invariant w url output chunks s -> exclusion s -> discipline w url s ->
  exclusion (run w url output sched s)
  /\ discipline w url (run w url output sched s).
Proof.
  induction sched as [|p sched IH]; intros s Hinv Hex Hd; [done|].
  cbn. unfold exec at 2 4.
  destruct (step w url output p s) as [s'|] eqn:Hs; cbn; [|by apply IH].
  pose proof (step_transition _ _ _ _ _ _ Hs) as Htr.
  apply IH.
  - by eapply invariant_step.
  - by eapply exclusion_transition.
  - eapply discipline_transition; [|done..].
    by rewrite (inv_chunks _ _ _ _ _ Hinv).
Qed.

Lemma sound_DownloadChunks (sched : list Pick) :
  exclusion (DownloadChunks w url output chunks sched)
  /\ discipline w url (DownloadChunks w url output chunks sched).
Proof.
  apply sound_run;
    [by apply invariant_start|apply exclusion_start|apply discipline_start].
Qed.

End Sound.

(** ** The fetch coordinator: lock, traffic, clean success *)

(** In every state of a download at most one task is between
    [mutex.Lock()] and [mutex.Unlock()], and the mutex is taken exactly
    when there is one. *)
Theorem DownloadChunks_mutual_exclusion (w : World) (url output : string)
    (chunks : list DownloadChunk) (sched : list Pick) :
  create_err w output = None ->
  Forall (fun c => U64.in_range (Start c)) chunks ->
  let s := DownloadChunks w url output chunks sched in
  (forall j k tj tk,
     tasks s !! j = Some tj -> tasks s !! k = Some tk ->
     holds (pc tj) = true -> holds (pc tk) = true -> j = k)
  /\ (mutex s = true <-> exists k t, tasks s !! k = Some t /\ holds (pc t) = true).
Proof.
  intros Hc Hty s.
  destruct (sound_DownloadChunks w url output chunks Hc Hty sched) as [Hex _].
  fold s in Hex. split; [apply Hex|]. split; [apply Hex|].
  intros (k & t & Ht & Hh). destruct (mutex s) eqn:Hm; [done|].
  by rewrite (ex_free _ Hex Hm _ _ Ht) in Hh.
Qed.

Lemma DownloadChunks_mutual_exclusion_witness :
  let w := example_world None (fun _ => 206) (fun _ => "abcd") (fun _ => None) in
  let s := DownloadChunks w "http://h/f" "out.bin" [mkChunk 0 4; mkChunk 4 8]
             [Run 0; Run 1; Run 1; Run 0; Run 1]%nat in
  mutex s = true
  /\ (forall j k tj tk,
        tasks s !! j = Some tj -> tasks s !! k = Some tk ->
        holds (pc tj) = true -> holds (pc tk) = true -> j = k).
Proof.
  intros w s. split; [reflexivity|].
  refine (proj1 (DownloadChunks_mutual_exclusion w "http://h/f" "out.bin"
                   [mkChunk 0 4; mkChunk 4 8]
                   [Run 0; Run 1; Run 1; Run 0; Run 1]%nat _ _)).
  - reflexivity.
  - repeat constructor; unfold U64.in_range, U64.modulus; cbn; lia.
Defined.

(** Every write to the file starts at the [Start] of the chunk of the
    task that makes it, and puts there a prefix of the body of the 206
    response to that task's request: the seek and the copy of a task are
    never separated by a seek or a copy of another. *)
Theorem DownloadChunks_writes_at_Start (w : World) (url output : string)
    (chunks : list DownloadChunk) (sched : list Pick)
    (k : nat) (off : Z) (data : list Byte.byte) :
  create_err w output = None ->
  Forall (fun c => U64.in_range (Start c)) chunks ->
  EvWrite k off data ∈ trace (DownloadChunks w url output chunks sched) ->
  exists c resp m,
    chunks !! k = Some c
    /\ off = Start c
    /\ http_do w k (chunkRequest url (Start c) (End c)) = inr resp
    /\ StatusCode resp = StatusPartialContent
    /\ data = take m (Body resp).
Proof.
  intros Hc Hty Hin.
  destruct (sound_DownloadChunks w url output chunks Hc Hty sched) as [_ Hd].
  pose proof (invariant_DownloadChunks w url output chunks sched Hc) as Hinv.
  destruct (di_write _ _ _ Hd _ _ _ Hin) as (t & resp & m & Ht & Hg & -> & ->).
  destruct Hg as (_ & Hdo & Hst).
  exists (chunk t), resp, m. split; [|done].
  by rewrite <- (inv_chunks _ _ _ _ _ Hinv), list_lookup_fmap, Ht.
Qed.

Lemma DownloadChunks_writes_at_Start_witness :
  exists c resp m,
    [mkChunk 0 4; mkChunk 4 8] !! 1%nat = Some c
    /\ 4 = Start c
    /\ http_do (example_world None (fun _ => 206) (fun _ => "abcd") (fun _ => None))
         1 (chunkRequest "http://h/f" (Start c) (End c)) = inr resp
    /\ StatusCode resp = StatusPartialContent
    /\ list_byte_of_string "abcd" = take m (Body resp).
Proof.
  apply (DownloadChunks_writes_at_Start
           (example_world None (fun _ => 206) (fun _ => "abcd") (fun _ => None))
           "http://h/f" "out.bin" [mkChunk 0 4; mkChunk 4 8]
           [Run 0; Run 1; Run 1; Run 0; Run 1; Run 1]%nat 1 4).
  - reflexivity.
  - repeat constructor; unfold U64.in_range, U64.modulus; cbn; lia.
  - cbn. do 2 (apply elem_of_cons; right). apply elem_of_cons. by left.
Defined.

(** No task asks, writes or reports twice: in the trace of a download every
    task has at most one request, at most one write and at most one
    outcome received from it. *)
Theorem DownloadChunks_no_retry (w : World) (url output : string)
    (chunks : list DownloadChunk) (sched : list Pick) :
  create_err w output = None ->
  Forall (fun c => U64.in_range (Start c)) chunks ->
  let s := DownloadChunks w url output chunks sched in
  NoDup (requesters (trace s))
  /\ NoDup (writers (trace s))
  /\ NoDup (received (trace s)).*1.
Proof.
  intros Hc Hty s.
  destruct (sound_DownloadChunks w url output chunks Hc Hty sched) as [_ Hd].
  pose proof (invariant_DownloadChunks w url output chunks sched Hc) as Hinv.
  split; [apply Hd|]. split; [apply Hd|apply Hinv].
Qed.

Lemma DownloadChunks_no_retry_witness :
  let w := example_world None (fun _ => 206) (fun _ => "abcd") (fun _ => None) in
  let s := DownloadChunks w "http://h/f" "out.bin" [mkChunk 0 4; mkChunk 4 8]
             (sequential 2) in
  requesters (trace s) = [0; 1]%nat
  /\ NoDup (requesters (trace s))
  /\ NoDup (writers (trace s))
  /\ NoDup (received (trace s)).*1.
Proof.
  intros w s. split; [reflexivity|].
  apply (DownloadChunks_no_retry w "http://h/f" "out.bin"
           [mkChunk 0 4; mkChunk 4 8] (sequential 2)).
  - reflexivity.
  - repeat constructor; unfold U64.in_range, U64.modulus; cbn; lia.
Defined.

(** When the caller has left the loop without an error it has received a
    success from every task. *)
Lemma returned_nil_all_received (w : World) (url output : string)
    (chunks : list DownloadChunk) (s : State) :
  invariant w url output chunks s ->
  returned s = Some None ->
  forall k, (k < length chunks)%nat -> (k, None) ∈ received (trace s).
Proof.
  intros [Hch Hpc Hrq Hwr Hrc Hnd Hco Hfi]. unfold returned.
  destruct (coord s) as [| |[e|]] eqn:Hcs; try done. intros _.
  cbn in Hco. destruct Hco as [Hlen Hnil].
  assert (Hperm : (received (trace s)).*1 ≡ₚ seq 0 (length chunks)).
  { apply submseteq_length_Permutation.
    - apply NoDup_submseteq; [done|].
      intros k [[k' err] [-> Hk]]%list_elem_of_fmap.
      apply elem_of_seq. apply Hrc in Hk as (t & Ht & _).
      apply lookup_lt_Some in Ht. rewrite <- Hch, length_fmap. cbn. lia.
    - by rewrite length_fmap, length_seq, Hlen. }
  intros k Hk.
  assert (Hin : k ∈ (received (trace s)).*1).
  { rewrite Hperm. apply elem_of_seq. lia. }
  apply list_elem_of_fmap in Hin as [[k' err] [-> Hin]].
  pose proof (proj1 (Forall_forall _ _) Hnil _ Hin) as Hn. cbn in Hn.
  by rewrite <- Hn.
Qed.

(** A call that returns [nil] leaves no work behind: the caller has
    received the success of every task, so that a task has nothing left
    but its return and the deferred close of its response body; no task is
    between [mutex.Lock()] and [mutex.Unlock()], the mutex is free, the
    file is closed, and every task has written the whole body of its 206
    response at the [Start] of its chunk. *)
Theorem DownloadChunks_clean_success (w : World) (url output : string)
    (chunks : list DownloadChunk) (sched : list Pick) :
  create_err w output = None ->
  Forall (fun c => U64.in_range (Start c)) chunks ->
  let s := DownloadChunks w url output chunks sched in
  returned s = Some None ->
  (forall k c, chunks !! k = Some c -> EvRecv k None ∈ trace s)
  /\ (forall k t, tasks s !! k = Some t -> holds (pc t) = false)
  /\ mutex s = false
  /\ closed (file s) = true
  /\ (forall k c, chunks !! k = Some c ->
        exists resp,
          http_do w k (chunkRequest url (Start c) (End c)) = inr resp
          /\ StatusCode resp = StatusPartialContent
          /\ EvWrite k (Start c) (Body resp) ∈ trace s).
Proof.
  intros Hc Hty s Hret.
  destruct (sound_DownloadChunks w url output chunks Hc Hty sched) as [Hex Hd].
  pose proof (invariant_DownloadChunks w url output chunks sched Hc) as Hinv.
  fold s in Hex, Hd, Hinv.
  pose proof (returned_nil_all_received _ _ _ _ _ Hinv Hret) as Hall.
  assert (Hlen : length (tasks s) = length chunks).
  { by rewrite <- (inv_chunks _ _ _ _ _ Hinv), length_fmap. }
  assert (Hexit : forall k t, tasks s !! k = Some t -> pc t = TExited).
  { intros k t Ht. pose proof (lookup_lt_Some _ _ _ Ht) as Hk.
    destruct (di_reported _ _ _ Hd k (Hall k ltac:(lia))) as (t' & _ & Ht' & ? & _).
    congruence. }
  split; [|split; [|split; [|split]]].
  - intros k c Hk. apply elem_of_received, Hall.
    by apply (lookup_lt_Some _ _ _ Hk).
  - intros k t Ht. by rewrite (Hexit _ _ Ht).
  - destruct (mutex s) eqn:Hm; [|done].
    destruct (ex_held _ Hex Hm) as (k & t & Ht & Hh).
    by rewrite (Hexit _ _ Ht) in Hh.
  - rewrite (ex_closed _ Hex). unfold returned in Hret.
    by destruct (coord s).
  - intros k c Hk. pose proof (lookup_lt_Some _ _ _ Hk) as Hlt.
    destruct (di_reported _ _ _ Hd k (Hall k Hlt))
      as (t & resp & Ht & _ & (_ & Hdo & Hst) & Hin).
    assert (chunk t = c) as <-.
    { rewrite <- (inv_chunks _ _ _ _ _ Hinv), list_lookup_fmap, Ht in Hk.
      by injection Hk. }
    by exists resp.
Qed.

Lemma DownloadChunks_clean_success_witness :
  let w := example_world None (fun _ => 206) (fun _ => "abcd") (fun _ => None) in
  let s := DownloadChunks w "http://h/f" "out.bin" [mkChunk 0 4; mkChunk 4 8]
             (sequential 2) in
  returned s = Some None
  /\ contents (file s) = list_byte_of_string "abcdabcd"
  /\ mutex s = false
  /\ (forall k c, [mkChunk 0 4; mkChunk 4 8] !! k = Some c ->
        EvRecv k None ∈ trace s).
Proof.
  intros w s.
  assert (Hr : returned s = Some None) by reflexivity.
  split; [exact Hr|]. split; [reflexivity|].
  destruct (DownloadChunks_clean_success w "http://h/f" "out.bin"
              [mkChunk 0 4; mkChunk 4 8] (sequential 2)) as (H1 & _ & H2 & _).
  - reflexivity.
  - repeat constructor; unfold U64.in_range, U64.modulus; cbn; lia.
  - exact Hr.
  - split; [exact H2|exact H1].
Defined.

(** ** After the return *)

Section Frozen.

Context (w : World) (url output : string).

Lemma Seek_closed (k : nat) (z : Z) (f f' : File) :
  Seek w k z f = inr f' -> closed f = false /\ closed f' = false.
Proof.
  unfold Seek. destruct (closed f) eqn:Hc; [done|].
  destruct (seek_fault w k); [done|]. destruct (z <? 0); [done|].
  by intros [= <-].
Qed.

(** The file is closed exactly when the call has returned. *)
Lemma closed_transition (s s' : State) :
  closed (file s) = is_returned (coord s) ->
  transition w url output s s' ->
  closed (file s') = is_returned (coord s').
Proof.
  intros Hcl Htr.
  destruct Htr as [k t x Ht Hpc Hnr|k t x Ht Hpc Hnr Hdo|k t resp Ht Hpc Hnr Hdo Hst
    |k t resp Ht Hpc Hnr Hdo Hst|k t resp Ht Hpc Hm|k t resp x Ht Hpc Hs
    |k t resp f Ht Hpc Hs|k t resp Ht Hpc Hcl'|k t resp n x Ht Hpc Hcl' Hcf
    |k t resp Ht Hpc Hcl' Hcf|k t Ht Hpc|k t i err locked Hc Hi Ht Hpc|i Hc Hi|ret Hc];
    cbn; try done.
  - apply Seek_closed in Hs as [Hs1 Hs2]. congruence.
  - congruence.
  - congruence.
  - rewrite Hc in Hcl. by destruct err.
  - by rewrite Hc in Hcl.
Qed.

Lemma closed_run (sched : list Pick) : forall s,
  closed (file s) = is_returned (coord s) ->
  closed (file (run w url output sched s))
  = is_returned (coord (run w url output sched s)).
Proof.
  induction sched as [|p sched IH]; intros s Hcl; [done|].
  cbn. apply IH. unfold exec.
  destruct (step w url output p s) as [s'|] eqn:Hs; cbn; [|done].
  eapply closed_transition; [done|]. by eapply step_transition.
Qed.

(** After the return a step changes neither the file nor the result, and
    writes nothing. *)
Lemma frozen_transition (s s' : State) (r : option error) :
  closed (file s) = true ->
  coord s = CReturned r ->
  transition w url output s s' ->
  file s' = file s /\ coord s' = CReturned r
  /\ writers (trace s') = writers (trace s).
Proof.
  intros Hcl Hco Htr.
  destruct Htr as [k t x Ht Hpc Hnr|k t x Ht Hpc Hnr Hdo|k t resp Ht Hpc Hnr Hdo Hst
    |k t resp Ht Hpc Hnr Hdo Hst|k t resp Ht Hpc Hm|k t resp x Ht Hpc Hs
    |k t resp f Ht Hpc Hs|k t resp Ht Hpc Hcl'|k t resp n x Ht Hpc Hcl' Hcf
    |k t resp Ht Hpc Hcl' Hcf|k t Ht Hpc|k t i err locked Hc Hi Ht Hpc|i Hc Hi|ret Hc];
    cbn; try congruence; try done;
    try (by rewrite writers_snoc, app_nil_r).
  apply Seek_closed in Hs as [Hs1 Hs2]. congruence.
Qed.

Lemma frozen_run (sched : list Pick) : forall s r,
  closed (file s) = true ->
  coord s = CReturned r ->
  file (run w url output sched s) = file s
  /\ coord (run w url output sched s) = CReturned r
  /\ writers (trace (run w url output sched s)) = writers (trace s).
Proof.
  induction sched as [|p sched IH]; intros s r Hcl Hco; [done|].
  cbn. unfold exec at 2 4 6.
  destruct (step w url output p s) as [s'|] eqn:Hs; cbn; [|by apply IH].
  apply step_transition in Hs.
  destruct (frozen_transition _ _ _ Hcl Hco Hs) as (Hf & Hc' & Hw).
  rewrite <- Hf, <- Hw. apply IH; [by rewrite Hf|done].
Qed.

End Frozen.

(** Once [DownloadChunks] has returned, with or without an error, the
    file is closed and no goroutine that is still running changes it: in
    every continuation the file is the same and nothing more is written. *)
Theorem DownloadChunks_frozen_after_return (w : World) (url output : string)
    (chunks : list DownloadChunk) (sched more : list Pick) (r : option error) :
  let s := DownloadChunks w url output chunks sched in
  returned s = Some r ->
  let s' := run w url output more s in
  closed (file s) = true
  /\ returned s' = Some r
  /\ file s' = file s
  /\ writers (trace s') = writers (trace s).
Proof.
  intros s Hret s'. unfold returned in Hret.
  destruct (coord s) as [| |r'] eqn:Hco; try done. injection Hret as ->.
  assert (Hcl : closed (file s) = true).
  { unfold s, DownloadChunks. rewrite closed_run.
    - fold (DownloadChunks w url output chunks sched). fold s. by rewrite Hco.
    - unfold DownloadChunks_start. by destruct (create_err w output). }
  destruct (frozen_run w url output more s r Hcl Hco) as (Hf & Hc & Hw).
  split; [done|]. split; [|done]. unfold returned, s'. by rewrite Hc.
Qed.

Lemma DownloadChunks_frozen_after_return_witness :
  let w := example_world None (fun k => if decide (k = 0)%nat then 500 else 206)
             (fun _ => "abcd") (fun _ => None) in
  let s := DownloadChunks w "http://h/f" "out.bin" [mkChunk 0 4; mkChunk 4 8]
             [Run 0; Run 1; Run 1; Run 1; Recv 0; Coord]%nat in
  let s' := run w "http://h/f" "out.bin" [Run 1; Run 1]%nat s in
  returned s = Some (Some (errStatus "http://h/f" 500))
  /\ contents (file s') = []
  /\ file s' = file s.
Proof.
  intros w s s'.
  assert (Hr : returned s = Some (Some (errStatus "http://h/f" 500)))
    by reflexivity.
  split; [exact Hr|]. split; [reflexivity|].
  exact (proj1 (proj2 (proj2
           (DownloadChunks_frozen_after_return w "http://h/f" "out.bin"
              [mkChunk 0 4; mkChunk 4 8]
              [Run 0; Run 1; Run 1; Run 1; Recv 0; Coord]%nat
              [Run 1; Run 1]%nat _ Hr)))).
Defined.

(** ** No deadlock, and an end to every run *)

Section Progress.

Context (w : World) (url output : string).

(** A task in its own code, outside the lock queue and the channel, can
    take its next step. *)
Lemma task_can_move (s : State) (k : nat) (t : Task) :
  tasks s !! k = Some t ->
  match pc t with
  | TSpawned | TSeeking _ | TCopying _ | TUnlocking => True
  | TLocking _ | TSending _ _ | TExited => False
  end ->
  exists s', transition w url output s s'.
Proof.
  intros Ht Hp. destruct (pc t) as [|r|r|r|e l| |] eqn:Hpc; try done.
  - destruct (new_request_err w url) as [x|] eqn:Hnr.
    { eexists. by eapply T_request_refused. }
    destruct (http_do w k (chunkRequest url (Start (chunk t)) (End (chunk t))))
      as [x|resp] eqn:Hdo.
    { eexists. by eapply T_transport_failed. }
    destruct (decide (StatusCode resp = StatusPartialContent)).
    + eexists. by eapply T_answered.
    + eexists. by eapply T_status_rejected.
  - destruct (Seek w k (U64.to_int64 (Start (chunk t))) (file s)) as [x|f] eqn:Hs.
    + eexists. by eapply T_seek_failed.
    + eexists. by eapply T_sought.
  - destruct (closed (file s)) eqn:Hcl.
    { eexists. by eapply T_copy_refused. }
    destruct (copy_fault w k) as [[n x]|] eqn:Hcf.
    + eexists. by eapply T_copy_failed.
    + eexists. by eapply T_copied.
  - eexists. by eapply T_unlocked.
Qed.

(** Fewer outcomes received than tasks: some task has not reported. *)
Lemma missing_key (keys : list nat) (n : nat) :
  NoDup keys -> (length keys < n)%nat ->
  exists k, (k < n)%nat /\ k ∉ keys.
Proof.
  intros Hnd Hlen.
  destruct (decide (Forall (fun k => k ∈ keys) (seq 0 n))) as [Hall|Hex].
  - assert (Hsub : seq 0 n ⊆+ keys).
    { apply NoDup_submseteq; [apply NoDup_seq|].
      intros k Hk. by apply (proj1 (Forall_forall _ _) Hall). }
    apply submseteq_length in Hsub. rewrite length_seq in Hsub. lia.
  - apply not_Forall_Exists in Hex; [|intros k; apply _].
    apply Exists_exists in Hex as (k & Hk & Hnot).
    exists k. split; [|done]. apply elem_of_seq in Hk. lia.
Qed.

(** Until the call has returned some goroutine can take a step. *)
Lemma progress (chunks : list DownloadChunk) (s : State) :
  invariant w url output chunks s ->
  exclusion s ->
  discipline w url s ->
  returned s = None ->
  exists s', transition w url output s s'.
Proof.
  intros Hinv Hex Hd Hret. unfold returned in Hret.
  destruct (coord s) as [i|r|r] eqn:Hco; [|eexists; by eapply T_closed|done].
  destruct (decide (i < length (tasks s))%nat) as [Hi|Hi];
    [|eexists; by eapply T_left].
  pose proof (inv_coord _ _ _ _ _ Hinv) as Hc. rewrite Hco in Hc.
  destruct Hc as (-> & _ & _).
  destruct (missing_key (received (trace s)).*1 (length (tasks s)))
    as (k & Hk & Hnot); [apply Hinv|by rewrite length_fmap|].
  destruct (lookup_lt_is_Some_2 (tasks s) k Hk) as [t Ht].
  assert (Hsend : forall j tj e l,
    tasks s !! j = Some tj -> pc tj = TSending e l ->
    exists s', transition w url output s s').
  { intros j tj e l Htj Hp. eexists. by eapply T_received. }
  destruct (pc t) as [|r|r|r|e l| |] eqn:Hpc.
  - eapply task_can_move; [done|]. by rewrite Hpc.
  - destruct (mutex s) eqn:Hm; [|eexists; by eapply T_locked].
    destruct (ex_held _ Hex Hm) as (h & th & Hth & Hh).
    destruct (pc th) as [|r'|r'|r'|e [|]| |] eqn:Hph; try done.
    + eapply (task_can_move s h th); [done|]. by rewrite Hph.
    + eapply (task_can_move s h th); [done|]. by rewrite Hph.
    + by eapply Hsend.
    + eapply (task_can_move s h th); [done|]. by rewrite Hph.
  - eapply task_can_move; [done|]. by rewrite Hpc.
  - eapply task_can_move; [done|]. by rewrite Hpc.
  - by eapply Hsend.
  - destruct (di_done _ _ _ Hd k t Ht ltac:(by left)) as [e He].
    destruct Hnot. apply list_elem_of_fmap. by exists (k, e).
  - destruct (di_done _ _ _ Hd k t Ht ltac:(by right)) as [e He].
    destruct Hnot. apply list_elem_of_fmap. by exists (k, e).
Qed.

Lemma rank_alter (l : list Task) (k : nat) (t : Task) (p' : TaskPc) :
  l !! k = Some t ->
  (sum_list ((fun t => rank (pc t)) <$> alter (fun t => mkTask (chunk t) p') k l)
   + rank (pc t)
   = sum_list ((fun t => rank (pc t)) <$> l) + rank p')%nat.
Proof.
  revert k. induction l as [|a l IH]; intros [|k] Hk; try done.
  - cbn in *. simplify_eq. lia.
  - cbn in *. specialize (IH k Hk). cbn in IH. lia.
Qed.

(** Every step brings the download nearer to its end. *)
Lemma weight_transition (s s' : State) :
  transition w url output s s' -> (weight s' < weight s)%nat.
Proof.
  intros Htr. unfold weight.
  destruct Htr as [k t x Ht Hpc Hnr|k t x Ht Hpc Hnr Hdo|k t resp Ht Hpc Hnr Hdo Hst
    |k t resp Ht Hpc Hnr Hdo Hst|k t resp Ht Hpc Hm|k t resp x Ht Hpc Hs
    |k t resp f Ht Hpc Hs|k t resp Ht Hpc Hcl|k t resp n x Ht Hpc Hcl Hcf
    |k t resp Ht Hpc Hcl Hcf|k t Ht Hpc|k t i err locked Hc Hi Ht Hpc|i Hc Hi|ret Hc];
    cbn [tasks coord set_pc set_mutex set_file set_coord log].
  1-11: match goal with
        | |- context [alter (fun t => mkTask (chunk t) ?p) ?j (tasks ?s0)] =>
            pose proof (rank_alter (tasks s0) j t p Ht) as Hr
        end; rewrite Hpc in Hr; cbn in Hr; lia.
  - pose proof (rank_alter (tasks s) k t (if locked then TUnlocking else TExited) Ht)
      as Hr.
    rewrite Hpc in Hr. rewrite Hc. destruct locked, err; cbn in *; lia.
  - rewrite Hc. cbn. lia.
  - rewrite Hc. cbn. lia.
Qed.

Lemma run_step (p : Pick) (sched : list Pick) (s s' : State) :
  step w url output p s = Some s' ->
  run w url output (p :: sched) s = run w url output sched s'.
Proof.
  intros Hs. unfold run. cbn [foldl].
  replace (exec w url output s p) with s'; [done|].
  unfold exec. by rewrite Hs.
Qed.

Lemma enabled_weight (sched : list Pick) : forall s,
  enabled w url output sched s ->
  (length sched + weight (run w url output sched s) <= weight s)%nat.
Proof.
  induction sched as [|p sched IH]; intros s He; [cbn; lia|].
  cbn in He.
  destruct (step w url output p s) as [s'|] eqn:Hs; [|done].
  rewrite (run_step _ _ _ _ Hs).
  specialize (IH s' He). apply step_transition, weight_transition in Hs.
  cbn [length]. lia.
Qed.

Lemma weight_start (chunks : list DownloadChunk) :
  (weight (DownloadChunks_start w output chunks) <= 6 * length chunks + 2)%nat.
Proof.
  unfold DownloadChunks_start, weight.
  destruct (create_err w output); cbn; [lia|].
  induction chunks as [|c chunks IH]; cbn in *; lia.
Qed.

End Progress.

(** No deadlock: in every state of a download whose call has not returned
    yet, some goroutine can take a step. *)
Theorem DownloadChunks_no_deadlock (w : World) (url output : string)
    (chunks : list DownloadChunk) (sched : list Pick) :
  create_err w output = None ->
  Forall (fun c => U64.in_range (Start c)) chunks ->
  let s := DownloadChunks w url output chunks sched in
  returned s = None ->
  exists p s', step w url output p s = Some s'.
Proof.
  intros Hc Hty s Hret.
  destruct (sound_DownloadChunks w url output chunks Hc Hty sched) as [Hex Hd].
  pose proof (invariant_DownloadChunks w url output chunks sched Hc) as Hinv.
  destruct (progress w url output chunks s Hinv Hex Hd Hret) as [s' Htr].
  destruct (transition_step _ _ _ _ _ Htr) as [p Hp]. eauto.
Qed.

Lemma DownloadChunks_no_deadlock_witness :
  let w := example_world None (fun _ => 206) (fun _ => "abcd")
             (fun k => if decide (k = 0)%nat then Some "seek out.bin: illegal seek"
                       else None) in
  exists p s',
    step w "http://h/f" "out.bin" p
      (DownloadChunks w "http://h/f" "out.bin" [mkChunk 0 4; mkChunk 4 8]
         [Run 0; Run 1; Run 0; Run 0]%nat)
    = Some s'.
Proof.
  intros w.
  apply (DownloadChunks_no_deadlock w "http://h/f" "out.bin"
           [mkChunk 0 4; mkChunk 4 8] [Run 0; Run 1; Run 0; Run 0]%nat).
  - reflexivity.
  - repeat constructor; unfold U64.in_range, U64.modulus; cbn; lia.
  - reflexivity.
Defined.

(** Every run ends: a schedule whose picks are all enabled, from the start
    of the call, has at most six steps per chunk and two more. *)
Theorem DownloadChunks_bounded (w : World) (url output : string)
    (chunks : list DownloadChunk) (sched : list Pick) :
  enabled w url output sched (DownloadChunks_start w output chunks) ->
  (length sched <= 6 * length chunks + 2)%nat.
Proof.
  intros He. apply enabled_weight in He.
  pose proof (weight_start w output chunks). lia.
Qed.

Lemma DownloadChunks_bounded_witness :
  (length [Run 0; Run 0; Run 0; Run 0; Recv 0; Coord; Coord]%nat <= 6 * 1 + 2)%nat.
Proof.
  apply (DownloadChunks_bounded
           (example_world None (fun _ => 206) (fun _ => "abcd") (fun _ => None))
           "http://h/f" "out.bin" [mkChunk 0 4]).
  exact I.
Defined.

(** ** The file is the resource *)

Lemma length_write_at (off : Z) (data old : list Byte.byte) :
  data <> [] ->
  length (write_at off data old)
  = (length old `max` (Z.to_nat off + length data))%nat.
Proof.
  intros Hd. unfold write_at. destruct data as [|b data]; [done|].
  rewrite !length_app, length_take, length_replicate, length_drop. lia.
Qed.

Lemma lookup_write_at_in (off : Z) (data old : list Byte.byte) (i : nat) :
  (Z.to_nat off <= i < Z.to_nat off + length data)%nat ->
  write_at off data old !! i = data !! (i - Z.to_nat off)%nat.
Proof.
  intros Hi. unfold write_at. destruct data as [|b data]; [cbn in Hi; lia|].
  set (d := b :: data) in *.
  assert (Hl : length (take (Z.to_nat off) old
                         ++ replicate (Z.to_nat off - length old) Byte.x00)
               = Z.to_nat off).
  { rewrite length_app, length_take, length_replicate. lia. }
  rewrite (app_assoc (take _ _)), lookup_app_r by lia.
  rewrite Hl. by rewrite lookup_app_l by lia.
Qed.

Lemma lookup_write_at_out (off : Z) (data old : list Byte.byte) (i : nat) :
  (i < Z.to_nat off \/ Z.to_nat off + length data <= i)%nat ->
  (i < length old)%nat ->
  write_at off data old !! i = old !! i.
Proof.
  intros Hi Hlt. unfold write_at. destruct data as [|b data]; [done|].
  set (d := b :: data) in *. destruct Hi as [Hi|Hi].
  - rewrite lookup_app_l by (rewrite length_take; lia).
    by rewrite lookup_take_lt.
  - assert (Hl : length (take (Z.to_nat off) old
                           ++ replicate (Z.to_nat off - length old) Byte.x00 ++ d)
                 = (Z.to_nat off + length d)%nat).
    { rewrite !length_app, length_take, length_replicate. lia. }
    rewrite (app_assoc (take _ _)), (app_assoc (take _ _ ++ _)).
    rewrite <- (app_assoc (take _ _)). rewrite lookup_app_r by lia.
    rewrite Hl, lookup_drop. f_equal. lia.
Qed.

Section Resource.

Context (resource : list Byte.byte).

Lemma covered_lt (tr : list Event) (i : nat) :
  faithful resource tr -> covered tr i -> (i < length resource)%nat.
Proof.
  intros Hf (k & off & data & Hin & _ & Hi).
  destruct (Hf _ _ _ Hin) as (_ & m & ->).
  rewrite length_take, length_drop in Hi. lia.
Qed.

Lemma replay_agrees (tr : list Event) :
  faithful resource tr ->
  (length (replay tr) <= length resource)%nat
  /\ forall i, covered tr i -> replay tr !! i = resource !! i.
Proof.
  induction tr as [|e tr IH] using rev_ind; intros Hf.
  { split; [unfold replay; cbn; lia|]. intros i (k & off & data & Hin & _).
    by apply elem_of_nil in Hin. }
  assert (Hf' : faithful resource tr).
  { intros k off data Hin. apply (Hf k off data), elem_of_app. by left. }
  destruct (IH Hf') as [Hlen Hag]. rewrite replay_snoc.
  assert (Hold : forall i, covered (tr ++ [e]) i ->
    covered tr i \/ exists k off data, e = EvWrite k off data /\ 0 <= off
      /\ (Z.to_nat off <= i < Z.to_nat off + length data)%nat).
  { intros i (k & off & data & [Hin|Hin]%elem_of_app & H0 & Hi).
    - left. by exists k, off, data.
    - right. apply list_elem_of_singleton in Hin. eauto 10. }
  destruct e as [u|k req|k off data|k err];
    try (split; [done|]; intros i [?|(? & ? & ? & ? & _)]%Hold; [by apply Hag|done]).
  destruct (Hf k off data) as (H0 & m & Hd);
    [apply elem_of_app; right; by apply list_elem_of_singleton|].
  destruct (decide (data = [])) as [->|Hne].
  { split; [done|]. intros i [?|(? & ? & ? & [= <- <- <-] & _ & Hi)]%Hold;
      [by apply Hag|cbn in Hi; lia]. }
  assert (Hdl : (0 < length data /\ Z.to_nat off + length data <= length resource)%nat).
  { destruct data; [done|]. rewrite Hd.
    assert (Hp : (0 < length (take m (drop (Z.to_nat off) resource)))%nat)
      by (rewrite <- Hd; cbn; lia).
    rewrite length_take, length_drop in *. lia. }
  split.
  - rewrite length_write_at by done. lia.
  - intros i Hi.
    destruct (decide (Z.to_nat off <= i < Z.to_nat off + length data)%nat) as [Hin|Hout].
    + rewrite lookup_write_at_in by done. rewrite Hd.
      rewrite lookup_take_lt by (rewrite Hd in Hin; rewrite length_take in Hin; lia).
      rewrite lookup_drop. f_equal. lia.
    + destruct (Hold i Hi) as [Hc|(? & ? & ? & [= <- <- <-] & _ & ?)]; [|lia].
      pose proof (covered_lt tr i Hf' Hc) as Hlt.
      pose proof (Hag i Hc) as Heq.
      assert (Hlo : (i < length (replay tr))%nat).
      { apply lookup_lt_is_Some. rewrite Heq. by apply lookup_lt_is_Some. }
      rewrite lookup_write_at_out by (done || lia). done.
Qed.

(** Writes that are faithful and cover the whole resource rebuild it. *)
Lemma replay_resource (tr : list Event) :
  faithful resource tr ->
  (forall i, (i < length resource)%nat -> covered tr i) ->
  replay tr = resource.
Proof.
  intros Hf Hcov. destruct (replay_agrees tr Hf) as [Hlen Hag].
  apply list_eq. intros i.
  destruct (decide (i < length resource)%nat) as [Hi|Hi].
  - by apply Hag, Hcov.
  - rewrite (lookup_ge_None_2 resource) by lia.
    apply lookup_ge_None_2. lia.
Qed.

End Resource.

Lemma plan_typed (size threads : Z) :
  U64.in_range size -> 1 <= threads < U64.modulus ->
  Forall (fun c => U64.in_range (Start c))
         (planned size threads <$> seq 0 (Z.to_nat threads)).
Proof.
  intros Hs Ht. apply Forall_forall.
  intros c (k & -> & Hk%elem_of_seq)%list_elem_of_fmap.
  pose proof (planned_ordered size threads Hs Ht k ltac:(lia)) as Ho.
  destruct Hs. unfold U64.in_range. lia.
Qed.

(** From the planner to the file: when the plan of [GetDownloadChunks] is
    downloaded from a server that answers each range request with bytes of
    the resource from the chunk's [Start] up to its [End] at least, and
    the call returns [nil], the file is the resource, byte for byte,
    whatever the order in which the goroutines ran. *)
Theorem DownloadChunks_file_is_resource (w : World) (url output : string)
    (size threads : Z) (chunks : list DownloadChunk) (sched : list Pick)
    (resource : list Byte.byte) :
  U64.in_range size -> 1 <= threads < U64.modulus ->
  GetDownloadChunks size threads = Ok chunks ->
  Z.of_nat (length resource) = size ->
  honest w url resource chunks ->
  create_err w output = None ->
  returned (DownloadChunks w url output chunks sched) = Some None ->
  contents (file (DownloadChunks w url output chunks sched)) = resource.
Proof.
  intros Hs Ht Hplan Hlen Hon Hc Hret.
  apply GetDownloadChunks_Ok_inv in Hplan as [_ ->]; [|done..].
  set (chunks := planned size threads <$> seq 0 (Z.to_nat threads)) in *.
  pose proof (plan_partitions size threads Hs Ht) as Hpart. fold chunks in Hpart.
  pose proof (plan_typed size threads Hs Ht) as Hty. fold chunks in Hty.
  set (s := DownloadChunks w url output chunks sched) in *.
  destruct (sound_DownloadChunks w url output chunks Hc Hty sched) as [Hex Hd].
  pose proof (invariant_DownloadChunks w url output chunks sched Hc) as Hinv.
  fold s in Hex, Hd, Hinv.
  rewrite (inv_file _ _ _ _ _ Hinv).
  assert (Hchunk : forall k t, tasks s !! k = Some t -> chunks !! k = Some (chunk t)).
  { intros k t Ht'.
    by rewrite <- (inv_chunks _ _ _ _ _ Hinv), list_lookup_fmap, Ht'. }
  apply replay_resource.
  - intros k off data Hin.
    destruct (di_write _ _ _ Hd _ _ _ Hin) as (t & resp & m & Ht' & Hg & -> & ->).
    pose proof (ex_range _ Hex _ _ Ht') as [H0 _]. split; [done|].
    destruct Hg as (_ & Hdo & Hst).
    destruct (Hon k (chunk t) resp (Hchunk _ _ Ht') Hdo Hst) as (n & -> & _).
    exists (m `min` n)%nat. apply take_take.
  - intros i Hi.
    destruct (proj1 (part_cover _ _ Hpart (Z.of_nat i)) ltac:(lia))
      as (k & c & Hk & Hlo & Hhi).
    pose proof (lookup_lt_Some _ _ _ Hk) as Hlt.
    pose proof (returned_nil_all_received _ _ _ _ _ Hinv Hret k Hlt) as Hrec.
    destruct (di_reported _ _ _ Hd k Hrec)
      as (t & resp & Ht' & _ & (_ & Hdo & Hst) & Hin).
    assert (c = chunk t) as -> by (pose proof (Hchunk _ _ Ht'); congruence).
    pose proof (ex_range _ Hex _ _ Ht') as [H0 _].
    destruct (Hon k (chunk t) resp Hk Hdo Hst) as (n & Hbody & Hn).
    exists k, (Start (chunk t)), (Body resp). split; [done|]. split; [done|].
    rewrite Hbody, length_take, length_drop. lia.
Qed.

Lemma DownloadChunks_file_is_resource_witness :
  let w := example_world None (fun _ => 206)
             (fun k => match k with
                       | O => "abcd"
                       | S O => "defg"
                       | _ => "ghij"
                       end)
             (fun _ => None) in
  let s := DownloadChunks w "http://h/f" "out.bin"
             [mkChunk 0 3; mkChunk 3 6; mkChunk 6 10]
             [Run 0; Run 1; Run 2; Run 2; Run 2; Run 2; Recv 2; Run 1; Run 1;
              Run 1; Recv 1; Run 0; Run 0; Run 0; Recv 0; Coord; Coord]%nat in
  returned s = Some None
  /\ contents (file s) = list_byte_of_string "abcdefghij".
Proof.
  intros w s.
  assert (Hr : returned s = Some None) by reflexivity.
  split; [exact Hr|].
  apply (DownloadChunks_file_is_resource w "http://h/f" "out.bin" 10 3
           [mkChunk 0 3; mkChunk 3 6; mkChunk 6 10]); subst w.
  - unfold U64.in_range, U64.modulus. lia.
  - unfold U64.modulus. lia.
  - reflexivity.
  - reflexivity.
  - intros k c resp Hk Hdo Hst. exists 4%nat.
    cbv [example_world http_do] in Hdo.
    destruct k as [|[|[|k]]]; [| | |done];
      injection Hk as <-; injection Hdo as <-; split; (reflexivity || (cbn; lia)).
  - reflexivity.
  - exact Hr.
Defined.

(** ** When the file cannot be created *)

(** When [os.Create] fails, [DownloadChunks] returns that failure, with
    the output path in the message, and has done nothing else: no task was
    launched, no request was sent, nothing was written. *)
Theorem DownloadChunks_create_failure_no_launch (w : World) (url output : string)
    (chunks : list DownloadChunk) (sched : list Pick) (x : error) :
  create_err w output = Some x ->
  let s := DownloadChunks w url output chunks sched in
  returned s = Some (Some ("Error: Failed to create file " +:+ output +:+ ". " +:+ x))
  /\ tasks s = []
  /\ trace s = []
  /\ contents (file s) = [].
Proof.
  intros Hc s. unfold s. by rewrite (DownloadChunks_create_failure _ _ _ _ _ _ Hc).
Qed.

Lemma DownloadChunks_create_failure_no_launch_witness :
  let w := mkWorld (fun _ => inl "unused") (fun _ => Some "permission denied")
             (fun _ => None) (fun _ _ => inl "unused") (fun _ => None)
             (fun _ => None) in
  let s := DownloadChunks w "http://h/f" "/out.bin" [mkChunk 0 4; mkChunk 4 8]
             (sequential 2) in
  returned s
  = Some (Some "Error: Failed to create file /out.bin. permission denied")
  /\ tasks s = [] /\ trace s = [] /\ contents (file s) = [].
Proof.
  intros w s.
  apply (DownloadChunks_create_failure_no_launch w "http://h/f" "/out.bin"
           [mkChunk 0 4; mkChunk 4 8] (sequential 2) "permission denied").
  reflexivity.
Defined.

Lemma GetFileSize_panics_iff_witness :
  exists msg,
    (GetFileSize (mkWorld
                    (fun _ => inr (mkResponse 200 {["Content-Length" := []]} []))
                    (fun _ => None) (fun _ => None) (fun _ _ => inl "unused")
                    (fun _ => None) (fun _ => None))
                 "http://h/f").2
    = Panic msg.
Proof.
  apply (proj2 (GetFileSize_panics_iff _ "http://h/f")).
  exists (mkResponse 200 {["Content-Length" := []]} []). split; reflexivity.
Defined.

Lemma main_threads_accepts_witness : main_threads "8" = inr 8.
Proof.
  apply (proj2 (main_threads_accepts "8" 8)).
  split; [split; [reflexivity|lia]|lia].
Defined.
